(** * Quiz session of components/Quiz.tsx: answer matcher, handlers, scoring

    A shallow embedding of the decision-bearing part of the [Quiz] React
    component: the helper [isAnswerMatch], the six event handlers, the
    controls the render function attaches them to, the effect that keeps the
    short-answer draft in sync, and the report passed to [onSubmit]. *)

From Stdlib Require Import PrimFloat PrimInt63 Uint63 FloatOps FloatAxioms SpecFloat.
From Stdlib Require Import NArith ZArith QArith Qabs Ascii String Lia.
From Stdlib.Strings Require Import Byte.
From stdpp Require Import base decidable list.

Set Default Proof Using "Type".
Local Open Scope nat_scope.

(** ** JavaScript values *)

Module Js.

(** A JavaScript string is a sequence of UTF-16 code units. *)
Definition str : Type := list N.

(** The code units of an ASCII literal. *)
Fixpoint lit (s : string) : str :=
  match s with
  | EmptyString => []
  | String c r => N_of_ascii c :: lit r
  end.

(** A slot of type [T | null]; reading an array past its end (or a hole
    left by a write past its end) gives [undefined]. *)
Inductive nullable (A : Type) : Type :=
| undefined
| null
| val (a : A).
Global Arguments undefined {A}.
Global Arguments null {A}.
Global Arguments val {A} a.

Global Instance nullable_eq_dec {A} `{EqDecision A} : EqDecision (nullable A).
Proof. solve_decision. Defined.

(** [x === null] *)
Definition is_null {A} (x : nullable A) : bool :=
  match x with null => true | _ => false end.

(** [x === true] *)
Definition is_true (x : nullable bool) : bool :=
  match x with val true => true | _ => false end.

(** ToBoolean of a [boolean | null] slot. *)
Definition truthy (x : nullable bool) : bool :=
  match x with val b => b | _ => false end.

(** [s || ''] on a [string | null] slot: the empty string is falsy too. *)
Definition or_empty (x : nullable str) : str :=
  match x with val s => s | _ => [] end.

(** [a[i]] *)
Definition get {A} (a : list (nullable A)) (i : nat) : nullable A :=
  default undefined (a !! i).

(** [a[i] = v] on a fresh copy [[...a]]: in range the slot is replaced, out
    of range the array grows and the slots in between read [undefined]. *)
Definition set {A} (a : list (nullable A)) (i : nat) (v : nullable A)
  : list (nullable A) :=
  if decide (i < length a) then <[i := v]> a
  else a ++ replicate (i - length a) undefined ++ [v].

(** [Array(n).fill(null)] *)
Definition filled {A} (n : nat) : list (nullable A) := replicate n null.

(** White space and line terminators removed by [String.prototype.trim]. *)
Definition isWhiteSpace (c : N) : bool :=
  ((c =? 9) || (c =? 10) || (c =? 11) || (c =? 12) || (c =? 13)
   || (c =? 32) || (c =? 160) || (c =? 5760)
   || ((8192 <=? c) && (c <=? 8202))
   || (c =? 8232) || (c =? 8233) || (c =? 8239) || (c =? 8287)
   || (c =? 12288) || (c =? 65279))%N.

Fixpoint trimStart (s : str) : str :=
  match s with
  | c :: r => if isWhiteSpace c then trimStart r else s
  | [] => []
  end.

Definition trimEnd (s : str) : str := rev (trimStart (rev s)).

Definition trim (s : str) : str := trimEnd (trimStart s).

(** A JavaScript number holding a count: the double nearest to it (the
    count itself below 2^53). The machine integer wraps at 2^63, far above
    the 2^32 elements an array can hold. *)
Fixpoint int_of_nat (n : nat) : PrimInt63.int :=
  match n with
  | O => 0%uint63
  | S k => PrimInt63.add (int_of_nat k) 1%uint63
  end.

Definition number (n : nat) : float := PrimFloat.of_uint63 (int_of_nat n).

(** The rational a finite double stands for. *)
Definition to_Q (x : float) : option Q :=
  match Prim2SF x with
  | S754_zero _ => Some 0%Q
  | S754_finite sg m e =>
      let mag := (inject_Z (Z.pos m) * Qpower 2 e)%Q in
      Some (if sg then Qopp mag else mag)
  | _ => None
  end.

End Js.

Import Js.

(** ** The answer matcher *)

(** [.replace(/[.,]$/, '')]: without the [m] flag [$] is the end of input,
    so the only possible match is a final [.] (46) or [,] (44). *)
Definition stripTrailingPunct (s : str) : str :=
  match rev s with
  | c :: r => if ((c =? 46) || (c =? 44))%N then rev r else s
  | [] => s
  end.

Definition normalize (s : str) : str := stripTrailingPunct (trim s).

(** [isAnswerMatch] (Quiz.tsx, lines 50-59). [!option] holds for [null],
    [undefined] and the empty string. *)
Definition isAnswerMatch (opt : nullable str) (answer : str) : bool :=
  match opt with
  | val o =>
      if bool_decide (o = []) then false
      else if bool_decide (o = answer) then true
      else
        let normOption := normalize o in
        let normAnswer := normalize answer in
        bool_decide (normOption = normAnswer)
  | _ => false
  end.

(** The matcher as section 4.2 of the specification words it: false on an
    absent candidate, true on exact equality, otherwise equality of the
    normalized forms. *)
Definition matches_spec (candidate : nullable str) (canonicalAnswer : str) : bool :=
  match candidate with
  | val c =>
      if bool_decide (c = canonicalAnswer) then true
      else bool_decide (normalize c = normalize canonicalAnswer)
  | _ => false
  end.


(** ** Questions (types.ts) *)

Inductive QuestionType : Type :=
| multiple_choice
| short_answer
| ox.

Global Instance QuestionType_eq_dec : EqDecision QuestionType.
Proof. solve_decision. Defined.

Record QuizQuestion : Type := mkQuestion {
  question : str;
  questionType : QuestionType;
  options : option (list str);
  answer : str;
  explanation : str
}.

(** [type === 'multiple-choice' || type === 'ox'] *)
Definition isMcOrOx (q : QuizQuestion) : bool :=
  match questionType q with
  | multiple_choice | ox => true
  | short_answer => false
  end.

(** ** Component state: the values held by the [useState] hooks *)

Record State : Type := mkState {
  currentQuestionIndex : nat;
  userAnswers : list (nullable str);
  checkedStates : list (nullable bool);
  showResults : bool;
  tempShortAnswer : str;
  selfAssessedCorrectness : list (nullable bool)
}.

(** What a handler does: calls to the hooks' setters and to the [onSubmit]
    prop. A handler reads the state of the render that created it and never
    mutates it. *)
Inductive Call : Type :=
| setCurrentQuestionIndex (f : nat -> nat)
| setUserAnswers (a : list (nullable str))
| setCheckedStates (a : list (nullable bool))
| setShowResults (b : bool)
| setTempShortAnswer (s : str)
| setSelfAssessedCorrectness (a : list (nullable bool))
| onSubmit (score : float) (correctAnswers totalQuestions : nat)
           (answers : list (nullable str)) (correctness : list (nullable bool)).

Definition apply_call (s : State) (c : Call) : State :=
  match c with
  | setCurrentQuestionIndex f =>
      mkState (f (currentQuestionIndex s)) (userAnswers s) (checkedStates s)
              (showResults s) (tempShortAnswer s) (selfAssessedCorrectness s)
  | setUserAnswers a =>
      mkState (currentQuestionIndex s) a (checkedStates s)
              (showResults s) (tempShortAnswer s) (selfAssessedCorrectness s)
  | setCheckedStates a =>
      mkState (currentQuestionIndex s) (userAnswers s) a
              (showResults s) (tempShortAnswer s) (selfAssessedCorrectness s)
  | setShowResults b =>
      mkState (currentQuestionIndex s) (userAnswers s) (checkedStates s)
              b (tempShortAnswer s) (selfAssessedCorrectness s)
  | setTempShortAnswer t =>
      mkState (currentQuestionIndex s) (userAnswers s) (checkedStates s)
              (showResults s) t (selfAssessedCorrectness s)
  | setSelfAssessedCorrectness a =>
      mkState (currentQuestionIndex s) (userAnswers s) (checkedStates s)
              (showResults s) (tempShortAnswer s) a
  | onSubmit _ _ _ _ _ => s
  end.

(** The state of the next render: the queued updates applied in order. *)
Definition commit (s : State) (cs : list Call) : State :=
  fold_left apply_call cs s.

Definition is_onSubmit (c : Call) : bool :=
  match c with onSubmit _ _ _ _ _ => true | _ => false end.

(** The Scoring Reports delivered by a list of calls. *)
Definition reports (cs : list Call) : list Call := List.filter is_onSubmit cs.

Section Quiz.

(** The [questions] prop, fixed for the session. *)
Variable questions : list QuizQuestion.

(** [useState] initial values. *)
Definition init : State :=
  mkState 0 (filled (length questions)) (filled (length questions))
          false [] (filled (length questions)).

(** Values computed by the render function from the state. *)
Definition currentQuestion (s : State) : option QuizQuestion :=
  questions !! currentQuestionIndex s.
Definition userAnswer (s : State) : nullable str :=
  get (userAnswers s) (currentQuestionIndex s).
Definition isAnswerChecked (s : State) : bool :=
  truthy (get (checkedStates s) (currentQuestionIndex s)).

(** *** Handlers (Quiz.tsx, lines 206-270)

    Each handler is the closure of one render: it reads that render's
    state. [handleCheckAnswer] reads [currentQuestion.questionType], so it
    takes the current question. The audio, script and translation state
    ([setShowScript] and the like) takes no part in the session and is left
    out. *)

Definition handleAnswerSelect (s : State) (o : str) : list Call :=
  if isAnswerChecked s then []
  else
    let newAnswers := set (userAnswers s) (currentQuestionIndex s) (val o) in
    [setUserAnswers newAnswers].

Definition handleShortAnswerChange (s : State) (value : str) : list Call :=
  if isAnswerChecked s then []
  else [setTempShortAnswer value].

Definition handleCheckAnswer (q : QuizQuestion) (s : State) : list Call :=
  (if negb (isMcOrOx q)
   then [setUserAnswers (set (userAnswers s) (currentQuestionIndex s)
                             (val (tempShortAnswer s)))]
   else [])
  ++ [setCheckedStates (set (checkedStates s) (currentQuestionIndex s) (val true))].

Definition handleSelfAssessment (s : State) (isCorrect : bool) : list Call :=
  [setSelfAssessedCorrectness
     (set (selfAssessedCorrectness s) (currentQuestionIndex s) (val isCorrect))].

Definition handlePrev (s : State) : list Call :=
  if decide (0 < currentQuestionIndex s)
  then [setCurrentQuestionIndex (fun prev => prev - 1)]
  else [].

(** [questions.map((question, index) => ...)] of [handleNext]. *)
Definition calculatedCorrectness (s : State) : list bool :=
  imap (fun index question =>
          let ans := get (userAnswers s) index in
          if negb (isMcOrOx question)
          then is_true (get (selfAssessedCorrectness s) index)
          else isAnswerMatch ans (answer question))
       questions.

(** [calculatedCorrectness.filter(c => c === true).length] *)
Definition correctCount (s : State) : nat :=
  length (List.filter (fun c => Bool.eqb c true) (calculatedCorrectness s)).

(** [(correctCount / questions.length) * 100], in double precision. *)
Definition scorePercentage (s : State) : float :=
  PrimFloat.mul
    (PrimFloat.div (number (correctCount s)) (number (length questions)))
    100%float.

(** [questions.length - 1] is [-1] on an empty list, where the truncated
    subtraction gives [0]; the test fails either way, the index being
    non-negative. *)
Definition handleNext (s : State) : list Call :=
  if decide (currentQuestionIndex s < length questions - 1)
  then [setCurrentQuestionIndex (fun prev => prev + 1)]
  else
    [setShowResults true;
     onSubmit (scorePercentage s) (correctCount s) (length questions)
              (userAnswers s) (val <$> calculatedCorrectness s)].

(** *** Controls (the render function, lines 308-430 and 574-595) *)

(** [!options || options.length === 0] *)
Definition noOptions (o : option (list str)) : bool :=
  match o with
  | Some (_ :: _) => false
  | _ => true
  end.

(** The option buttons of a multiple-choice or ox question: an ox question
    without options gets ['O', 'X']; with no options at all an error
    message is shown instead of buttons. *)
Definition renderedOptions (q : QuizQuestion) : list str :=
  let opts :=
    if bool_decide (questionType q = ox) && noOptions (options q)
    then Some [lit "O"; lit "X"]
    else options q in
  if noOptions opts then [] else default [] opts.

Definition hasAnswer (q : QuizQuestion) (s : State) : bool :=
  if isMcOrOx q then negb (is_null (userAnswer s))
  else negb (bool_decide (trim (tempShortAnswer s) = [])).

Definition isCheckAnswerDisabled (q : QuizQuestion) (s : State) : bool :=
  negb (hasAnswer q s).

Definition isNextButtonDisabled (q : QuizQuestion) (s : State) : bool :=
  isAnswerChecked s && negb (isMcOrOx q)
  && is_null (get (selfAssessedCorrectness s) (currentQuestionIndex s)).

(** A native [button] or [input] element: while [disabled] it delivers no
    click or change event, so its handler is not called. *)
Definition control (disabled : bool) (handler : list Call) : list Call :=
  if disabled then [] else handler.

(** Modelled from the spec: [common/Button.tsx] is not among the sources.
    Section 4.1 reads the disabled controls as the guards of the
    operations, so [Button] is taken to hand [disabled] and [onClick] to a
    native button. *)
Definition Button (disabled : bool) (onClick : list Call) : list Call :=
  control disabled onClick.

(** User interaction with the rendered controls. *)
Inductive Event : Type :=
| ClickOption (k : nat)
| ChangeShortAnswer (value : str)
| ClickCheckAnswer
| ClickSelfAssessment (isCorrect : bool)
| ClickPrev
| ClickNext.

(** The handler an event reaches. Once [showResults] is set the component
    renders [null]; with the index out of range the render throws on
    [currentQuestion.questionType]: in both cases no control is mounted.
    The option buttons exist for multiple-choice and ox questions, the
    text input and the two self-assessment buttons otherwise (the latter
    only while the checked question has no assessment yet); the footer
    shows the next button for a checked question and the check button for
    an unchecked one. *)
Definition dispatch (s : State) (e : Event) : list Call :=
  if showResults s then []
  else
    match currentQuestion s with
    | None => []
    | Some q =>
        match e with
        | ClickOption k =>
            if isMcOrOx q then
              match renderedOptions q !! k with
              | Some o => control (isAnswerChecked s) (handleAnswerSelect s o)
              | None => []
              end
            else []
        | ChangeShortAnswer value =>
            if isMcOrOx q then []
            else control (isAnswerChecked s) (handleShortAnswerChange s value)
        | ClickSelfAssessment isCorrect =>
            if isMcOrOx q then []
            else if isAnswerChecked s
                    && is_null (get (selfAssessedCorrectness s)
                                    (currentQuestionIndex s))
            then Button false (handleSelfAssessment s isCorrect)
            else []
        | ClickPrev =>
            Button (bool_decide (currentQuestionIndex s = 0)) (handlePrev s)
        | ClickNext =>
            if isAnswerChecked s
            then Button (isNextButtonDisabled q s) (handleNext s)
            else []
        | ClickCheckAnswer =>
            if isAnswerChecked s then []
            else Button (isCheckAnswerDisabled q s) (handleCheckAnswer q s)
        end
    end.

(** *** The draft-synchronising effect (lines 126-135) *)

Definition syncTempShortAnswer (s : State) : list Call :=
  match currentQuestion s with
  | None => []
  | Some q =>
      let savedAnswer := get (userAnswers s) (currentQuestionIndex s) in
      if negb (isMcOrOx q)
      then [setTempShortAnswer (or_empty savedAnswer)]
      else [setTempShortAnswer []]
  end.

(** The effect's dependencies are the index and the identities of
    [userAnswers], [checkedStates] and [questions]: every call of
    [setUserAnswers] or [setCheckedStates] passes a fresh array. *)
Definition touchesDeps (c : Call) : bool :=
  match c with
  | setUserAnswers _ | setCheckedStates _ => true
  | _ => false
  end.

Definition depsChanged (s s' : State) (cs : list Call) : bool :=
  negb (bool_decide (currentQuestionIndex s = currentQuestionIndex s'))
  || existsb touchesDeps cs.

(** One event: the handler's updates are committed, then the effect runs
    if a dependency changed. The calls of the handler are returned along
    with the next state. *)
Definition step (s : State) (e : Event) : State * list Call :=
  let cs := dispatch s e in
  let s1 := commit s cs in
  let s2 := if depsChanged s s1 cs then commit s1 (syncTempShortAnswer s1)
            else s1 in
  (s2, cs).

(** The state after mounting: effects run once. *)
Definition start : State := commit init (syncTempShortAnswer init).

(** A whole session: the final state and every call made on the way. *)
Fixpoint run (s : State) (es : list Event) : State * list Call :=
  match es with
  | [] => (s, [])
  | e :: es' =>
      let r := step s e in
      let r' := run (fst r) es' in
      (fst r', snd r ++ snd r')
  end.

Inductive reachable : State -> Prop :=
| reachable_start : reachable start
| reachable_step s e : reachable s -> reachable (fst (step s e)).

(** The session has completed: the report was delivered and the quiz is
    no longer shown. *)
Definition completed (s : State) : Prop := showResults s = true.

(** *** The transitions of [step], case by case *)

(** The effect applied to a committed state. *)
Definition resync (s : State) : State := commit s (syncTempShortAnswer s).

Definition nextEnabled (q : QuizQuestion) (s : State) : Prop :=
  isAnswerChecked s = true /\ isNextButtonDisabled q s = false.

Inductive transition (s : State) : Event -> State -> list Call -> Prop :=
| t_idle e :
    dispatch s e = [] ->
    transition s e s []
| t_select q k o :
    showResults s = false -> currentQuestion s = Some q ->
    isMcOrOx q = true -> renderedOptions q !! k = Some o ->
    isAnswerChecked s = false ->
    let ua := set (userAnswers s) (currentQuestionIndex s) (val o) in
    transition s (ClickOption k)
      (resync (mkState (currentQuestionIndex s) ua (checkedStates s)
                       false (tempShortAnswer s) (selfAssessedCorrectness s)))
      [setUserAnswers ua]
| t_type q value :
    showResults s = false -> currentQuestion s = Some q ->
    isMcOrOx q = false -> isAnswerChecked s = false ->
    transition s (ChangeShortAnswer value)
      (mkState (currentQuestionIndex s) (userAnswers s) (checkedStates s)
               false value (selfAssessedCorrectness s))
      [setTempShortAnswer value]
| t_check q :
    showResults s = false -> currentQuestion s = Some q ->
    isAnswerChecked s = false -> hasAnswer q s = true ->
    let ua := if isMcOrOx q then userAnswers s
              else set (userAnswers s) (currentQuestionIndex s)
                       (val (tempShortAnswer s)) in
    let cs := set (checkedStates s) (currentQuestionIndex s) (val true) in
    transition s ClickCheckAnswer
      (resync (mkState (currentQuestionIndex s) ua cs
                       false (tempShortAnswer s) (selfAssessedCorrectness s)))
      (handleCheckAnswer q s)
| t_assess q isCorrect :
    showResults s = false -> currentQuestion s = Some q ->
    isMcOrOx q = false -> isAnswerChecked s = true ->
    get (selfAssessedCorrectness s) (currentQuestionIndex s) = null ->
    let sa := set (selfAssessedCorrectness s) (currentQuestionIndex s)
                  (val isCorrect) in
    transition s (ClickSelfAssessment isCorrect)
      (mkState (currentQuestionIndex s) (userAnswers s) (checkedStates s)
               false (tempShortAnswer s) sa)
      [setSelfAssessedCorrectness sa]
| t_prev q :
    showResults s = false -> currentQuestion s = Some q ->
    0 < currentQuestionIndex s ->
    transition s ClickPrev
      (resync (mkState (currentQuestionIndex s - 1) (userAnswers s)
                       (checkedStates s) false (tempShortAnswer s)
                       (selfAssessedCorrectness s)))
      (handlePrev s)
| t_next q :
    showResults s = false -> currentQuestion s = Some q ->
    nextEnabled q s ->
    currentQuestionIndex s < length questions - 1 ->
    transition s ClickNext
      (resync (mkState (currentQuestionIndex s + 1) (userAnswers s)
                       (checkedStates s) false (tempShortAnswer s)
                       (selfAssessedCorrectness s)))
      (handleNext s)
| t_submit q :
    showResults s = false -> currentQuestion s = Some q ->
    nextEnabled q s ->
    ~ currentQuestionIndex s < length questions - 1 ->
    transition s ClickNext
      (mkState (currentQuestionIndex s) (userAnswers s) (checkedStates s)
               true (tempShortAnswer s) (selfAssessedCorrectness s))
      (handleNext s).

(** *** What holds in every reachable state *)

Record invariant (s : State) : Prop := {
  inv_index :
    questions <> [] -> currentQuestionIndex s < length questions;
  inv_done :
    showResults s = true -> currentQuestionIndex s = length questions - 1;
  inv_answers i :
    i < length questions -> get (userAnswers s) i <> undefined;
  inv_defined i :
    i < length questions -> get (selfAssessedCorrectness s) i <> undefined;
  inv_auto i q :
    questions !! i = Some q -> isMcOrOx q = true ->
    get (selfAssessedCorrectness s) i = null;
  inv_passed i q :
    questions !! i = Some q -> isMcOrOx q = false ->
    i < currentQuestionIndex s
    \/ (i = currentQuestionIndex s /\ showResults s = true) ->
    exists b, get (selfAssessedCorrectness s) i = val b
}.

(** *** The shape of the per-question arrays *)

(** A slot of [userAnswers] holds an answer to [q]: one of the rendered
    options for a multiple-choice or ox question, a text with something
    else than white space otherwise. *)
Definition answered (q : QuizQuestion) (x : nullable str) : Prop :=
  exists a, x = val a
            /\ if isMcOrOx q then a ∈ renderedOptions q else trim a <> [].

Record shaped (s : State) : Prop := {
  sh_answers : length (userAnswers s) = length questions;
  sh_checked : length (checkedStates s) = length questions;
  sh_assessed : length (selfAssessedCorrectness s) = length questions;
  sh_flag i :
    i < length questions ->
    get (checkedStates s) i = null \/ get (checkedStates s) i = val true;
  sh_passed i :
    i < currentQuestionIndex s -> get (checkedStates s) i = val true;
  sh_done :
    showResults s = true ->
    get (checkedStates s) (currentQuestionIndex s) = val true;
  sh_answer i q :
    questions !! i = Some q -> get (checkedStates s) i = val true ->
    answered q (get (userAnswers s) i);
  sh_choice i q :
    questions !! i = Some q -> isMcOrOx q = true ->
    get (userAnswers s) i = null \/ answered q (get (userAnswers s) i);
  sh_blank i q :
    questions !! i = Some q -> isMcOrOx q = false ->
    get (checkedStates s) i = null -> get (userAnswers s) i = null;
  sh_graded i b :
    get (selfAssessedCorrectness s) i = val b ->
    get (checkedStates s) i = val true
}.

(** The draft agrees with the current question: empty on a multiple-choice
    or ox question, the committed answer on a checked question of another
    type. *)
Definition draftSynced (s : State) : Prop :=
  forall q,
    currentQuestion s = Some q ->
    if isMcOrOx q then tempShortAnswer s = []
    else isAnswerChecked s = true ->
         get (userAnswers s) (currentQuestionIndex s) = val (tempShortAnswer s).

(** *** Option styling ([getOptionClasses], lines 274-294) *)

Definition baseClasses : str :=
  lit "w-full text-left p-3 border rounded-lg transition-all duration-200 select-none text-sm leading-snug".

(** The five class strings [getOptionClasses] can return. *)
Definition classesSelected : str :=
  baseClasses ++ lit " bg-neon-blue/20 border-neon-blue ring-2 ring-neon-blue cursor-pointer font-medium dark:text-slate-100".
Definition classesIdle : str :=
  baseClasses ++ lit " bg-white dark:bg-slate-700 border-slate-300 dark:border-slate-600 hover:bg-slate-50 dark:hover:bg-slate-600 active:bg-slate-100 dark:active:bg-slate-500 cursor-pointer dark:text-slate-200".
Definition classesCorrect : str :=
  baseClasses ++ lit " bg-lime-green/20 border-lime-green ring-2 ring-lime-green cursor-default dark:text-slate-100".
Definition classesIncorrect : str :=
  baseClasses ++ lit " bg-red-100 dark:bg-red-900/30 border-red-500 ring-2 ring-red-500 cursor-default dark:text-slate-100".
Definition classesDimmed : str :=
  baseClasses ++ lit " bg-slate-50 dark:bg-slate-700/50 border-slate-300 dark:border-slate-600 text-slate-400 dark:text-slate-500 cursor-default opacity-60".

(** [q] is the current question of the render. *)
Definition getOptionClasses (q : QuizQuestion) (s : State) (opt : str) : str :=
  if negb (isAnswerChecked s) then
    if bool_decide (userAnswer s = val opt) then classesSelected
    else classesIdle
  else
    let isCorrectAnswer := isAnswerMatch (val opt) (answer q) in
    let isSelectedAnswer := bool_decide (val opt = userAnswer s) in
    if isCorrectAnswer then classesCorrect
    else if isSelectedAnswer then classesIncorrect
    else classesDimmed.

(** [showCorrectLabel] of [renderQuestionInput] (lines 327-328). *)
Definition showCorrectLabel (q : QuizQuestion) (s : State) (opt : str) : bool :=
  let isCorrectAnswer := isAnswerMatch (val opt) (answer q) in
  isAnswerChecked s && isCorrectAnswer.

(** The option buttons in the older copy of the component (part_000, line
    172): [currentQuestion.options || (isOx ? ['O', 'X'] : [])], where an
    empty array is truthy. *)
Definition renderedOptions_part_000 (q : QuizQuestion) : list str :=
  match options q with
  | Some l => l
  | None => if bool_decide (questionType q = ox) then [lit "O"; lit "X"] else []
  end.

(** *** Answering a whole quiz *)

(** The events that answer one question and leave it: the first option
    for a multiple-choice or ox question, the text "a" assessed as correct
    otherwise. *)
Definition answerScript (q : QuizQuestion) : list Event :=
  if isMcOrOx q then [ClickOption 0; ClickCheckAnswer; ClickNext]
  else [ChangeShortAnswer (lit "a"); ClickCheckAnswer;
        ClickSelfAssessment true; ClickNext].

Definition walkthrough (qs : list QuizQuestion) : list Event :=
  flat_map answerScript qs.

(** The user is at question [k] and has not touched it or any later one. *)
Definition untouchedFrom (k : nat) (s : State) : Prop :=
  currentQuestionIndex s = k /\ showResults s = false
  /\ forall i, k <= i -> i < length questions ->
       get (userAnswers s) i = null
       /\ get (checkedStates s) i = null
       /\ get (selfAssessedCorrectness s) i = null.

End Quiz.

(** ** A three-question session *)

Module Example3.

Definition q0 : QuizQuestion :=
  mkQuestion (lit "Pick") multiple_choice
             (Some [lit "A"; lit "B"; lit "C"]) (lit "B") (lit "e0").
Definition q1 : QuizQuestion :=
  mkQuestion (lit "True?") ox None (lit "O") (lit "e1").
Definition q2 : QuizQuestion :=
  mkQuestion (lit "Capital?") short_answer None (lit "Seoul") (lit "e2").
Definition qs : list QuizQuestion := [q0; q1; q2].

(** B checked, X checked, a typed answer checked and assessed correct. *)
Definition before_last : list Event :=
  [ClickOption 1; ClickCheckAnswer; ClickNext;
   ClickOption 1; ClickCheckAnswer; ClickNext;
   ChangeShortAnswer (lit "seoul"); ClickCheckAnswer;
   ClickSelfAssessment true].

Definition session : list Event := before_last ++ [ClickNext].

(** The third answer checked but not yet assessed. *)
Definition before_assessment : list Event :=
  [ClickOption 1; ClickCheckAnswer; ClickNext;
   ClickOption 1; ClickCheckAnswer; ClickNext;
   ChangeShortAnswer (lit "seoul"); ClickCheckAnswer].

Definition after (es : list Event) : State := fst (run qs (start qs) es).

(** The first two questions answered, the third one untouched. *)
Definition at_third : list Event :=
  [ClickOption 1; ClickCheckAnswer; ClickNext;
   ClickOption 1; ClickCheckAnswer; ClickNext].


(** A question whose canonical answer matches none of its options. *)
Definition q_unmatched : QuizQuestion :=
  mkQuestion (lit "2 + 2?") multiple_choice
             (Some [lit "a) 4"; lit "b) 5"]) (lit "4") (lit "e").
Definition qs_unmatched : list QuizQuestion := [q_unmatched].

End Example3.

(** ** The speech service (services/geminiService.ts) *)

Module Gemini.

(** [String.prototype.startsWith] and [String.prototype.includes]. *)
Fixpoint startsWith (s sub : str) {struct sub} : bool :=
  match sub, s with
  | [], _ => true
  | c :: sub', d :: s' => (c =? d)%N && startsWith s' sub'
  | _ :: _, [] => false
  end.

Fixpoint includes (s sub : str) : bool :=
  startsWith s sub
  || match s with
     | [] => false
     | _ :: s' => includes s' sub
     end.

(** A thrown value ([error: unknown]): an [Error] with its message, or
    anything else. *)
Inductive Thrown : Type :=
| ErrorObject (message : str)
| OtherValue.

Global Instance Thrown_eq_dec : EqDecision Thrown.
Proof. solve_decision. Defined.

Inductive Result (A : Type) : Type :=
| Returned (a : A)
| Threw (e : Thrown).
Global Arguments Returned {A} a.
Global Arguments Threw {A} e.

(** A [GoogleGenAI] client, known by the key it was built with. *)
Record Client : Type := mkClient { apiKey : str }.

Inductive TTSVoice : Type := Kore | Puck | Charon | Fenrir | Zephyr.

(** "AI 서비스가 초기화되지 않았습니다. API 키를 먼저 설정해주세요." *)
Definition notInitializedMessage : str :=
  [65; 73; 32; 49436; 48708; 49828; 44032; 32; 52488; 44592; 54868; 46104;
   51648; 32; 50506; 50520; 49845; 45768; 45796; 46; 32; 65; 80; 73; 32;
   53412; 47484; 32; 47676; 51200; 32; 49444; 51221; 54644; 51452; 49464;
   50836; 46]%N.

(** "API 키가 제공되지 않았습니다." *)
Definition noKeyMessage : str :=
  [65; 80; 73; 32; 53412; 44032; 32; 51228; 44277; 46104; 51648; 32; 50506;
   50520; 49845; 45768; 45796; 46]%N.

(** "API 키가 유효하지 않습니다. 올바른 키로 다시 설정해주세요." *)
Definition invalidKeyMessage : str :=
  [65; 80; 73; 32; 53412; 44032; 32; 50976; 54952; 54616; 51648; 32; 50506;
   49845; 45768; 45796; 46; 32; 50732; 48148; 47480; 32; 53412; 47196; 32;
   45796; 49884; 32; 49444; 51221; 54644; 51452; 49464; 50836; 46]%N.

(** "AI 모델 통신 오류: 파일을 직접 열어 실행하는 경우 브라우저 보안 정책으로 인해 AI 기능이 작동하지 않을 수 있습니다. 로컬 개발 서버를 통해 접속해주세요." *)
Definition fileProtocolMessage : str :=
  [65; 73; 32; 47784; 45944; 32; 53685; 49888; 32; 50724; 47448; 58; 32;
   54028; 51068; 51012; 32; 51649; 51217; 32; 50676; 50612; 32; 49892;
   54665; 54616; 45716; 32; 44221; 50864; 32; 48652; 46972; 50864; 51200;
   32; 48372; 50504; 32; 51221; 52293; 51004; 47196; 32; 51064; 54644; 32;
   65; 73; 32; 44592; 45733; 51060; 32; 51089; 46041; 54616; 51648; 32;
   50506; 51012; 32; 49688; 32; 51080; 49845; 45768; 45796; 46; 32; 47196;
   52972; 32; 44060; 48156; 32; 49436; 48260; 47484; 32; 53685; 54644; 32;
   51217; 49549; 54644; 51452; 49464; 50836; 46]%N.

(** "AI 모델과 통신 중 오류가 발생했습니다. 네트워크 연결을 확인하거나 잠시 후 다시 시도해주세요." *)
Definition communicationMessage : str :=
  [65; 73; 32; 47784; 45944; 44284; 32; 53685; 49888; 32; 51473; 32; 50724;
   47448; 44032; 32; 48156; 49373; 54664; 49845; 45768; 45796; 46; 32;
   45348; 53944; 50892; 53356; 32; 50672; 44208; 51012; 32; 54869; 51064;
   54616; 44144; 45208; 32; 51104; 49884; 32; 54980; 32; 45796; 49884; 32;
   49884; 46020; 54644; 51452; 49464; 50836; 46]%N.

(** "API로부터 오디오 데이터를 받지 못했습니다." *)
Definition noAudioMessage : str :=
  [65; 80; 73; 47196; 48512; 53552; 32; 50724; 46356; 50724; 32; 45936;
   51060; 53552; 47484; 32; 48155; 51648; 32; 47803; 54664; 49845; 45768;
   45796; 46]%N.

(** [initializeAi] (lines 7-12): the error thrown, if any, and the module
    variable [ai] afterwards. *)
Definition initializeAi (ai : option Client) (key : str)
  : Result unit * option Client :=
  if bool_decide (key = []) then (Threw (ErrorObject noKeyMessage), ai)
  else (Returned tt, Some (mkClient key)).

(** [getAi] (lines 14-19). *)
Definition getAi (ai : option Client) : Result Client :=
  match ai with
  | None => Threw (ErrorObject notInitializedMessage)
  | Some c => Returned c
  end.

Definition isKeyError (error : Thrown) : bool :=
  match error with
  | ErrorObject message =>
      includes message (lit "API key not valid")
      || includes message (lit "Requested entity was not found.")
  | OtherValue => false
  end.

(** [handleApiError] (lines 21-32) never returns: the value is what it
    throws. [fileProtocol] stands for
    [typeof window !== 'undefined' && window.location.protocol === 'file:']. *)
Definition handleApiError (fileProtocol : bool) (error : Thrown) : Thrown :=
  if isKeyError error then ErrorObject invalidKeyMessage
  else if fileProtocol then ErrorObject fileProtocolMessage
  else ErrorObject communicationMessage.

(** [generateSpeech] (lines 310-334). [generateContent] is the SDK call: it
    throws, or returns a response from which the optional chain
    [candidates?.[0]?.content?.parts?.[0]?.inlineData?.data] reads a string
    or [undefined]. [!base64Audio] holds for [undefined], [null] and the
    empty string. *)
Definition generateSpeech (ai : option Client) (fileProtocol : bool)
    (generateContent : Client -> str -> TTSVoice -> Result (nullable str))
    (textToSpeak : str) (voice : TTSVoice) : Result str :=
  let body :=
    match getAi ai with
    | Threw e => Threw e
    | Returned aiInstance =>
        match generateContent aiInstance textToSpeak voice with
        | Threw e => Threw e
        | Returned base64Audio =>
            match base64Audio with
            | val (c :: r) => Returned (c :: r)
            | _ => Threw (ErrorObject noAudioMessage)
            end
        end
    end in
  match body with
  | Returned b => Returned b
  | Threw error => Threw (handleApiError fileProtocol error)
  end.

(** [generateIllustration] (lines 55-78). [generateImages] is the SDK call
    with the prompt it is given; in its response [generatedImages], the
    [image] of an entry and the [imageBytes] of an image may be missing. *)
Record Image : Type := mkImage { imageBytes : nullable str }.
Record GeneratedImage : Type := mkGeneratedImage { image : nullable Image }.
Record GenerateImagesResponse : Type :=
  mkImagesResponse { generatedImages : nullable (list GeneratedImage) }.

Definition illustrationPrompt (prompt : str) : str :=
  lit "**[Strict Visual Rule]** This image must be purely visual. Do NOT include any text, numbers, labels, or symbols. Style: Friendly, colorful, and clear educational illustration suitable for a middle school textbook. It should visually explain the following concept to help a student understand: "
  ++ prompt ++ lit ".".

(** The [TypeError] of a property read on [undefined] (the text is V8's). *)
Definition typeError : Thrown :=
  ErrorObject (lit "Cannot read properties of undefined (reading 'imageBytes')").

Definition generateIllustration (ai : option Client)
    (generateImages : Client -> str -> Result GenerateImagesResponse)
    (prompt : str) : Result (nullable str) :=
  let body :=
    match getAi ai with
    | Threw e => Threw e
    | Returned aiInstance =>
        match generateImages aiInstance (illustrationPrompt prompt) with
        | Threw e => Threw e
        | Returned response =>
            match generatedImages response with
            | val (first :: _) =>
                match image first with
                | val im => Returned (imageBytes im)
                | _ => Threw typeError
                end
            | _ => Returned null
            end
        end
    end in
  match body with
  | Returned r => Returned r
  | Threw _ => Returned null
  end.







End Gemini.

(** ** Decoding the spoken audio ([decodeAudioData], Quiz.tsx, lines 35-47) *)

Module Audio.

Inductive Failure : Type :=
| NotSupportedError
| RangeError.

(** The promise an [async] function returns, once settled. *)
Inductive Settled (A : Type) : Type :=
| Resolved (a : A)
| Rejected (e : Failure).
Global Arguments Resolved {A} a.
Global Arguments Rejected {A} e.

(** One element of [new Int16Array(data.buffer)]: two bytes, low byte
    first, read as a two's complement number. *)
Definition int16 (lo hi : byte) : Z :=
  let u := (Z.of_N (Byte.to_N lo) + 256 * Z.of_N (Byte.to_N hi))%Z in
  if (u <? 32768)%Z then u else (u - 65536)%Z.

Fixpoint dataInt16 (data : list byte) : list Z :=
  match data with
  | lo :: hi :: rest => int16 lo hi :: dataInt16 rest
  | _ => []
  end.

(** The double holding a 16-bit integer. *)
Definition double (v : Z) : float :=
  match v with
  | Z0 => 0%float
  | Zpos _ => PrimFloat.of_uint63 (Uint63.of_Z v)
  | Zneg p => PrimFloat.opp (PrimFloat.of_uint63 (Uint63.of_Z (Zpos p)))
  end.

(** [dataInt16[i] / 32768.0] *)
Definition sample (v : Z) : float := PrimFloat.div (double v) 32768%float.

(** [data] is a [Uint8Array] that owns its buffer, as [decode] returns it.
    [frameCount] is [data.length / 2]; [createBuffer] takes its integer
    part and rejects a length of zero; the [Int16Array] constructor
    rejects a buffer with an odd number of bytes; the loop then fills
    [frameCount] samples. *)
Definition decodeAudioData (data : list byte) : Settled (list float) :=
  let frameCount := length data / 2 in
  if frameCount =? 0 then Rejected NotSupportedError
  else if Nat.odd (length data) then Rejected RangeError
  else Resolved (sample <$> dataInt16 data).

(** A double that a [Float32Array] stores without rounding: at most 24
    significant bits, exponent within the binary32 range. *)
Definition fitsFloat32 (x : float) : bool :=
  match Prim2SF x with
  | S754_zero _ => true
  | S754_finite _ m e =>
      ((Z.pos m mod 2 ^ 29 =? 0) && (-149 <=? e + 29) && (e + 53 <=? 128))%Z
  | _ => false
  end.

(** A sample is exactly the 16-bit value divided by 32768. *)
Definition exactSample (v : Z) (x : float) : bool :=
  match to_Q x with
  | Some y => Qeq_bool y (v # 32768) && fitsFloat32 x
  | None => false
  end.

Definition allBytes : list byte :=
  omap (fun n => Byte.of_N (N.of_nat n)) (seq 0 256).

End Audio.

(** ** Arrays *)

Section ArrayFacts.

Context {A : Type}.
Implicit Types (a : list (nullable A)) (v : nullable A) (i j : nat).

Lemma get_set_eq a i v : get (set a i v) i = v.
Proof.
  unfold get, set. case_decide as Hi.
  - by rewrite list_lookup_insert_eq.
  - rewrite lookup_app_r by lia. rewrite lookup_app_r; rewrite length_replicate.
    + by replace (i - length a - (i - length a)) with 0 by lia.
    + lia.
Qed.

Lemma get_set_ne a i j v : i <> j -> get (set a i v) j = get a j.
Proof.
  intros Hij. unfold get, set. case_decide as Hi.
  - by rewrite list_lookup_insert_ne.
  - destruct (decide (j < length a)) as [Hj|Hj].
    + by rewrite lookup_app_l.
    + rewrite (lookup_ge_None_2 a j) by lia.
      rewrite lookup_app_r by lia.
      destruct (decide (j - length a < i - length a)) as [Hk|Hk].
      * rewrite lookup_app_l by (rewrite length_replicate; lia).
        by rewrite lookup_replicate_2.
      * rewrite lookup_app_r by (rewrite length_replicate; lia).
        rewrite length_replicate.
        destruct (j - length a - (i - length a)) as [|m] eqn:Hm; [lia|done].
Qed.

Lemma length_set a i v : i < length a -> length (set a i v) = length a.
Proof. intros Hi. unfold set. rewrite decide_True by done. apply length_insert. Qed.

Lemma get_filled n i : i < n -> get (filled (A:=A) n) i = null.
Proof. intros Hi. unfold get, filled. by rewrite lookup_replicate_2. Qed.

Lemma length_filled n : length (filled (A:=A) n) = n.
Proof. apply length_replicate. Qed.

End ArrayFacts.

(** ** Numbers: counts as doubles, and rounding never yields NaN *)

Section Rounding.
Local Open Scope Z_scope.

Lemma iter_pos_invariant {A} (P : A -> Prop) (f : A -> A) :
  (forall x, P x -> P (f x)) -> forall p x, P x -> P (SpecFloat.iter_pos f p x).
Proof.
  intros Hf. induction p as [p IH|p IH|]; intros x Hx; cbn; auto.
Qed.

Lemma shr_1_nonneg mrs : 0 <= shr_m mrs -> 0 <= shr_m (shr_1 mrs).
Proof.
  destruct mrs as [m r s]. cbn. destruct m as [|[p|p|]|p]; cbn; lia.
Qed.

Lemma shr_nonneg mrs e n : 0 <= shr_m mrs -> 0 <= shr_m (fst (shr mrs e n)).
Proof.
  intros H. destruct n as [|p|p]; cbn; [done| |done].
  by apply (iter_pos_invariant (fun x => 0 <= shr_m x)); [apply shr_1_nonneg|].
Qed.

Lemma shr_record_of_loc_m m l : shr_m (shr_record_of_loc m l) = m.
Proof. by destruct l as [|[]]. Qed.

Lemma shr_fexp_nonneg m e l :
  0 <= m -> 0 <= shr_m (fst (shr_fexp prec emax m e l)).
Proof.
  intros H. unfold shr_fexp. apply shr_nonneg. by rewrite shr_record_of_loc_m.
Qed.

Lemma round_nearest_even_nonneg m l : 0 <= m -> 0 <= round_nearest_even m l.
Proof.
  intros H. destruct l as [|[]]; cbn; try lia. destruct (Z.even m); lia.
Qed.

Lemma binary_round_aux_not_nan sx mx ex lx :
  0 <= mx -> binary_round_aux prec emax sx mx ex lx <> S754_nan.
Proof.
  intros H. unfold binary_round_aux.
  pose proof (shr_fexp_nonneg mx ex lx H) as H1.
  destruct (shr_fexp prec emax mx ex lx) as [mrs' e']. cbn [fst] in H1.
  pose proof (shr_fexp_nonneg _ e' loc_Exact
                (round_nearest_even_nonneg _ (loc_of_shr_record mrs') H1)) as H2.
  destruct (shr_fexp prec emax _ e' loc_Exact) as [mrs'' e'']. cbn [fst] in H2.
  destruct (shr_m mrs'') as [|m|m]; [done| |lia].
  by destruct (e'' <=? emax - prec).
Qed.
End Rounding.

Section Numbers.
Local Open Scope Z_scope.

Lemma digits2_pos_lower p : 2 ^ (Zpos (digits2_pos p) - 1) <= Zpos p.
Proof.
  induction p as [p IH|p IH|]; cbn [digits2_pos]; [| |done].
  - rewrite Pos2Z.inj_succ.
    replace (Z.succ (Z.pos (digits2_pos p)) - 1) with (Z.succ (Z.pos (digits2_pos p) - 1)) by lia.
    rewrite Z.pow_succ_r by lia. lia.
  - rewrite Pos2Z.inj_succ.
    replace (Z.succ (Z.pos (digits2_pos p)) - 1) with (Z.succ (Z.pos (digits2_pos p) - 1)) by lia.
    rewrite Z.pow_succ_r by lia. lia.
Qed.

Lemma digits2_pos_bound p k :
  0 <= k -> Zpos p < 2 ^ k -> Zpos (digits2_pos p) <= k.
Proof.
  intros Hk Hp. pose proof (digits2_pos_lower p) as Hl.
  destruct (decide (Zpos (digits2_pos p) <= k)) as [|Hgt]; [done|].
  assert (2 ^ k <= 2 ^ (Zpos (digits2_pos p) - 1)) by (apply Z.pow_le_mono_r; lia).
  lia.
Qed.

Lemma digits2_pos_iter_xO p k :
  digits2_pos (Pos.iter xO p k) = (digits2_pos p + k)%positive.
Proof.
  induction k as [|k IH] using Pos.peano_ind.
  - cbn. lia.
  - rewrite Pos.iter_succ. cbn [digits2_pos]. rewrite IH. lia.
Qed.

Lemma binary_round_aux_exact m e :
  Zpos (digits2_pos m) = prec -> emin prec emax <= e <= emax - prec ->
  binary_round_aux prec emax false (Zpos m) e loc_Exact = S754_finite false m e.
Proof.
  intros Hd He. unfold binary_round_aux, shr_fexp. cbn [Zdigits2 shr_record_of_loc].
  rewrite Hd.
  assert (fexp prec emax (prec + e) - e = 0) as ->
    by (unfold fexp, emin, prec, emax in *; lia).
  cbn [shr loc_of_shr_record shr_m round_nearest_even Zdigits2 shr_record_of_loc].
  rewrite Hd.
  assert (fexp prec emax (prec + e) - e = 0) as ->
    by (unfold fexp, emin, prec, emax in *; lia).
  cbn [shr shr_m]. rewrite Zle_imp_le_bool by lia. done.
Qed.

Lemma binary_round_integer p :
  Zpos p < 2 ^ prec ->
  exists m e, binary_round prec emax false p 0 = S754_finite false m e.
Proof.
  intros Hp. pose proof (digits2_pos_bound p prec ltac:(done) Hp) as Hd.
  unfold binary_round, shl_align.
  assert (fexp prec emax (Zpos (digits2_pos p) + 0) - 0
          = Zpos (digits2_pos p) - prec) as Hf
    by (unfold fexp, emin, prec, emax in *; lia).
  assert (fexp prec emax (Zpos (digits2_pos p) + 0) = Zpos (digits2_pos p) - prec) as Hf'
    by lia.
  rewrite Hf, Hf'.
  destruct (Zpos (digits2_pos p) - prec) as [|k|k] eqn:Hk.
  - eexists _, _. apply binary_round_aux_exact; unfold emin, prec, emax in *; lia.
  - lia.
  - eexists _, _. apply binary_round_aux_exact.
    + rewrite digits2_pos_iter_xO. lia.
    + unfold emin, prec, emax in *. lia.
Qed.

Lemma to_Z_int_of_nat n :
  Z.of_nat n < 2 ^ 63 -> Uint63.to_Z (int_of_nat n) = Z.of_nat n.
Proof.
  induction n as [|n IH]; intros Hn; [done|].
  cbn [int_of_nat]. rewrite Uint63.add_spec, IH by lia.
  rewrite Uint63.to_Z_1. change wB with (2 ^ 63). rewrite Z.mod_small; lia.
Qed.

Lemma number_zero : Prim2SF (number 0) = S754_zero false.
Proof. reflexivity. Qed.

Lemma number_finite n :
  (0 < n)%nat -> Z.of_nat n < 2 ^ prec ->
  exists m e, Prim2SF (number n) = S754_finite false m e.
Proof.
  intros Hpos Hn. unfold number.
  rewrite of_uint63_spec, to_Z_int_of_nat
    by (unfold prec in Hn; assert (2 ^ 53 < 2 ^ 63) by done; lia).
  destruct (Z.of_nat n) as [|p|p] eqn:Hp; [lia| |lia].
  by apply binary_round_integer.
Qed.

Lemma number_not_nan n : Prim2SF (number n) <> S754_nan.
Proof.
  unfold number. rewrite of_uint63_spec.
  destruct (Uint63.to_Z (int_of_nat n)) as [|p|p] eqn:Hp; [done| |].
  - cbn [binary_normalize]. unfold binary_round.
    destruct (shl_align _ _ _) as [mz ez]. by apply binary_round_aux_not_nan.
  - pose proof (Uint63.to_Z_bounded (int_of_nat n)). lia.
Qed.

Lemma SFdiv_not_nan x my ey :
  x <> S754_nan -> (forall s, x <> S754_infinity s) ->
  SFdiv prec emax x (S754_finite false my ey) <> S754_nan.
Proof.
  intros Hx Hi. destruct x as [s|s| |s mx ex]; [done|by destruct (Hi s)|done|].
  cbn [SFdiv]. unfold SFdiv_core_binary.
  set (m' := match _ with Z0 => _ | Zpos _ => _ | Zneg _ => _ end).
  assert (0 <= m') as Hm.
  { subst m'. destruct (_ - _ - _); [lia| |lia]. apply Z.shiftl_nonneg. lia. }
  pose proof (Z_div_mod m' (Zpos my) ltac:(lia)) as Hdm.
  pose proof (Z.div_pos m' (Zpos my) Hm ltac:(lia)) as Hq.
  unfold Z.div in Hq.
  destruct (Z.div_eucl m' (Zpos my)) as [q r].
  by apply binary_round_aux_not_nan.
Qed.

Lemma SFmul_not_nan x my ey :
  x <> S754_nan ->
  SFmul prec emax x (S754_finite false my ey) <> S754_nan.
Proof.
  intros Hx. destruct x as [s|s| |s mx ex]; [done|done|done|].
  cbn [SFmul]. by apply binary_round_aux_not_nan.
Qed.

Lemma ratio_times_100_not_nan (c n : nat) :
  (0 < n)%nat -> Z.of_nat n < 2 ^ prec -> Z.of_nat c < 2 ^ prec ->
  Prim2SF (PrimFloat.mul (PrimFloat.div (number c) (number n)) 100%float)
  <> S754_nan.
Proof.
  intros Hn Hb Hc. rewrite mul_spec, div_spec.
  destruct (number_finite n Hn Hb) as (m & e & ->).
  change (Prim2SF 100) with (S754_finite false 7036874417766400 (-46)).
  apply SFmul_not_nan, SFdiv_not_nan.
  - apply number_not_nan.
  - destruct c as [|c]; [by rewrite number_zero|].
    destruct (number_finite (S c) ltac:(lia) Hc) as (m' & e' & ->). done.
Qed.

End Numbers.

(** ** The matcher *)

Lemma isAnswerMatch_absent (answer : str) :
  isAnswerMatch null answer = false /\ isAnswerMatch undefined answer = false.
Proof. done. Qed.

Lemma isAnswerMatch_empty (answer : str) : isAnswerMatch (val []) answer = false.
Proof. done. Qed.

Lemma isAnswerMatch_nonempty (o answer : str) :
  o <> [] ->
  isAnswerMatch (val o) answer = true <-> o = answer \/ normalize o = normalize answer.
Proof.
  intros Ho. unfold isAnswerMatch.
  rewrite bool_decide_eq_false_2 by done.
  case_bool_decide as Heq.
  - split; [by left | done].
  - rewrite bool_decide_eq_true. split; [by right | by intros [?|?]].
Qed.

(** ** The state machine *)

Section QuizFacts.

Variable questions : list QuizQuestion.
Implicit Types (s : State) (e : Event) (q : QuizQuestion).


Lemma resync_fields s :
  currentQuestionIndex (resync questions s) = currentQuestionIndex s
  /\ userAnswers (resync questions s) = userAnswers s
  /\ checkedStates (resync questions s) = checkedStates s
  /\ showResults (resync questions s) = showResults s
  /\ selfAssessedCorrectness (resync questions s) = selfAssessedCorrectness s.
Proof.
  unfold resync, syncTempShortAnswer.
  destruct (currentQuestion questions s) as [q|]; [|done].
  by destruct (isMcOrOx q).
Qed.

Lemma resync_index s : currentQuestionIndex (resync questions s) = currentQuestionIndex s.
Proof. apply resync_fields. Qed.
Lemma resync_userAnswers s : userAnswers (resync questions s) = userAnswers s.
Proof. apply resync_fields. Qed.
Lemma resync_checkedStates s : checkedStates (resync questions s) = checkedStates s.
Proof. apply resync_fields. Qed.
Lemma resync_showResults s : showResults (resync questions s) = showResults s.
Proof. apply resync_fields. Qed.
Lemma resync_selfAssessed s :
  selfAssessedCorrectness (resync questions s) = selfAssessedCorrectness s.
Proof. apply resync_fields. Qed.

Lemma step_idle s e : dispatch questions s e = [] -> step questions s e = (s, []).
Proof.
  intros H. unfold step. rewrite H. cbn.
  unfold depsChanged. cbn. by rewrite bool_decide_eq_true_2.
Qed.

Lemma depsChanged_touch s s' cs :
  existsb touchesDeps cs = true -> depsChanged s s' cs = true.
Proof. intros H. unfold depsChanged. rewrite H. apply orb_true_r. Qed.

Lemma depsChanged_index s s' cs :
  currentQuestionIndex s <> currentQuestionIndex s' -> depsChanged s s' cs = true.
Proof. intros H. unfold depsChanged. by rewrite bool_decide_eq_false_2. Qed.

Lemma depsChanged_none s s' cs :
  currentQuestionIndex s = currentQuestionIndex s' ->
  existsb touchesDeps cs = false -> depsChanged s s' cs = false.
Proof. intros H1 H2. unfold depsChanged. by rewrite bool_decide_eq_true_2, H2. Qed.

Lemma step_transition s e : transition questions s e (fst (step questions s e)) (snd (step questions s e)).
Proof.
  destruct (dispatch questions s e) as [|c cs] eqn:Hd.
  { rewrite step_idle by done. by constructor. }
  revert Hd. unfold step, dispatch.
  destruct (showResults s) eqn:Hshow; [done|].
  destruct (currentQuestion questions s) as [q|] eqn:Hq; [|done].
  destruct e as [k|value| |isCorrect| |]; cbn [fst snd].
  - destruct (isMcOrOx q) eqn:Hmc; [|done].
    destruct (renderedOptions q !! k) as [o|] eqn:Ho; [|done].
    unfold control, handleAnswerSelect.
    destruct (isAnswerChecked s) eqn:Hc; [done|]. intros _.
    rewrite depsChanged_touch by done. cbn. rewrite Hshow.
    by eapply t_select.
  - destruct (isMcOrOx q) eqn:Hmc; [done|].
    unfold control, handleShortAnswerChange.
    destruct (isAnswerChecked s) eqn:Hc; [done|]. intros _.
    rewrite depsChanged_none by done. cbn. rewrite Hshow.
    by eapply t_type.
  - destruct (isAnswerChecked s) eqn:Hc; [done|].
    unfold Button, control, isCheckAnswerDisabled.
    destruct (hasAnswer q s) eqn:Ha; [|done]. intros _. cbn [negb].
    rewrite depsChanged_touch
      by (unfold handleCheckAnswer; rewrite existsb_app; apply orb_true_r).
    pose proof (t_check questions s q Hshow Hq Hc Ha) as T.
    unfold handleCheckAnswer in *. destruct (isMcOrOx q); cbn in *;
      rewrite Hshow; exact T.
  - destruct (isMcOrOx q) eqn:Hmc; [done|].
    destruct (isAnswerChecked s) eqn:Hc; [|done]. cbn [andb].
    destruct (get (selfAssessedCorrectness s) (currentQuestionIndex s))
      as [| |b] eqn:Hsa; [done| |done].
    intros _. unfold Button, control, handleSelfAssessment.
    rewrite depsChanged_none by done. cbn. rewrite Hshow.
    by eapply t_assess.
  - unfold Button, control. case_bool_decide as H0; [done|]. intros _.
    assert (0 < currentQuestionIndex s) as Hpos by lia.
    pose proof (t_prev questions s q Hshow Hq Hpos) as T.
    unfold handlePrev in *. rewrite decide_True in * by done.
    rewrite depsChanged_index by (cbn; lia). cbn. rewrite Hshow. exact T.
  - destruct (isAnswerChecked s) eqn:Hc; [|done].
    unfold control. destruct (isNextButtonDisabled q s) eqn:Hn; [done|].
    intros _.
    pose proof (t_next questions s q Hshow Hq (conj Hc Hn)) as T1.
    pose proof (t_submit questions s q Hshow Hq (conj Hc Hn)) as T2.
    unfold handleNext in *. case_decide as Hlt.
    + rewrite depsChanged_index by (cbn; lia). cbn. rewrite Hshow. by apply T1.
    + rewrite depsChanged_none by done. cbn. by apply T2.
Qed.

(** Mounting leaves the initial values in place. *)
Lemma start_fields :
  currentQuestionIndex (start questions) = 0
  /\ userAnswers (start questions) = filled (length questions)
  /\ checkedStates (start questions) = filled (length questions)
  /\ showResults (start questions) = false
  /\ selfAssessedCorrectness (start questions) = filled (length questions).
Proof.
  unfold start. fold (resync questions (init questions)).
  rewrite resync_index, resync_userAnswers, resync_checkedStates,
    resync_showResults, resync_selfAssessed. done.
Qed.

Lemma reachable_run s es :
  reachable questions s -> reachable questions (fst (run questions s es)).
Proof.
  revert s. induction es as [|e es IH]; intros s Hs; [done|].
  cbn. apply IH. by constructor.
Qed.

(** *** What every event preserves *)

Ltac unlet := repeat match goal with x := _ |- _ => subst x end.

Ltac fields :=
  rewrite ?resync_index, ?resync_userAnswers, ?resync_checkedStates,
    ?resync_showResults, ?resync_selfAssessed;
  cbn [currentQuestionIndex userAnswers checkedStates showResults
       tempShortAnswer selfAssessedCorrectness].

Ltac by_transition s e :=
  destruct (step_transition s e); unlet; cbn [fst snd]; fields.

Lemma step_checked_mono s e i :
  get (checkedStates s) i = val true ->
  get (checkedStates (fst (step questions s e))) i = val true.
Proof.
  intros Hi. by_transition s e; try done.
  destruct (decide (currentQuestionIndex s = i)) as [->|Hne].
  - apply get_set_eq.
  - by rewrite get_set_ne.
Qed.

Lemma checked_not_current s i :
  get (checkedStates s) i = val true -> isAnswerChecked s = false ->
  currentQuestionIndex s <> i.
Proof. unfold isAnswerChecked. intros Hi Hc Heq. by rewrite Heq, Hi in Hc. Qed.

Lemma step_answer_frozen s e i :
  get (checkedStates s) i = val true ->
  get (userAnswers (fst (step questions s e))) i = get (userAnswers s) i.
Proof.
  intros Hi. by_transition s e; try done.
  - apply get_set_ne. by apply checked_not_current.
  - destruct (isMcOrOx q); [done|].
    apply get_set_ne. by apply checked_not_current.
Qed.

Lemma run_checked_mono s es i :
  get (checkedStates s) i = val true ->
  get (checkedStates (fst (run questions s es))) i = val true.
Proof.
  revert s. induction es as [|e es IH]; intros s Hi; [done|].
  cbn. apply IH. by apply step_checked_mono.
Qed.

Lemma run_answer_frozen s es i :
  get (checkedStates s) i = val true ->
  get (userAnswers (fst (run questions s es))) i = get (userAnswers s) i.
Proof.
  revert s. induction es as [|e es IH]; intros s Hi; [done|].
  cbn. rewrite IH by (by apply step_checked_mono). by apply step_answer_frozen.
Qed.

(** *** The invariant *)

Lemma invariant_start : invariant questions (start questions).
Proof.
  destruct start_fields as (Hi & Hua & _ & Hs & Hsa).
  split; rewrite ?Hi, ?Hs, ?Hsa, ?Hua.
  - destruct questions; [done|cbn; lia].
  - done.
  - intros i Hlt. by rewrite get_filled.
  - intros i Hlt. by rewrite get_filled.
  - intros i q Hq _. apply get_filled. by eapply lookup_lt_Some.
  - intros i q _ _ [?|[_ ?]]; [lia|done].
Qed.

Lemma nextEnabled_assessed s q :
  invariant questions s -> currentQuestion questions s = Some q ->
  nextEnabled q s -> isMcOrOx q = false ->
  exists b, get (selfAssessedCorrectness s) (currentQuestionIndex s) = val b.
Proof.
  intros I Hq [Hc Hn] Hmc. unfold isNextButtonDisabled in Hn.
  rewrite Hc, Hmc in Hn. cbn in Hn.
  pose proof (inv_defined _ _ I (currentQuestionIndex s)
                (lookup_lt_Some _ _ _ Hq)) as Hd.
  destruct (get (selfAssessedCorrectness s) (currentQuestionIndex s));
    [done|done|by eexists].
Qed.

Lemma invariant_ext s s' :
  currentQuestionIndex s' = currentQuestionIndex s ->
  (showResults s' = true -> showResults s = true) ->
  selfAssessedCorrectness s' = selfAssessedCorrectness s ->
  (forall i, get (userAnswers s) i <> undefined ->
             get (userAnswers s') i <> undefined) ->
  invariant questions s -> invariant questions s'.
Proof.
  intros Hi Hs Hsa Hua I. split; rewrite ?Hi, ?Hsa; try apply I.
  - intros H. apply I. by apply Hs.
  - intros i Hlt. apply Hua. by apply I.
  - intros i q Hq Hmc [Hlt|[-> H]]; eapply I; eauto.
Qed.

Lemma set_val_defined {A} (a : list (nullable A)) i j (x : A) :
  get a j <> undefined -> get (set a i (val x)) j <> undefined.
Proof.
  intros H. destruct (decide (i = j)) as [->|Hne].
  - by rewrite get_set_eq.
  - by rewrite get_set_ne.
Qed.

Lemma invariant_step s e :
  invariant questions s -> invariant questions (fst (step questions s e)).
Proof.
  intros I. by_transition s e; try done.
  - (* an option is selected *)
    apply (invariant_ext s); fields; try done.
    intros i. apply set_val_defined.
  - (* the draft changes *)
    apply (invariant_ext s); fields; done.
  - (* the answer is checked *)
    apply (invariant_ext s); fields; try done.
    intros i. destruct (isMcOrOx q); [done|]. apply set_val_defined.
  - (* self-assessment *)
    match goal with H : isMcOrOx q = false |- _ => rename H into Hmc end.
    match goal with H : currentQuestion questions s = Some q |- _ => rename H into Hq end.
    split; fields.
    + apply I.
    + done.
    + apply I.
    + intros i Hlt. destruct (decide (currentQuestionIndex s = i)) as [<-|Hne].
      * by rewrite get_set_eq.
      * rewrite get_set_ne by done. by apply I.
    + intros i q' Hq' Hmc'.
      destruct (decide (currentQuestionIndex s = i)) as [<-|Hne].
      * unfold currentQuestion in Hq. congruence.
      * rewrite get_set_ne by done. by eapply I.
    + intros i q' Hq' Hmc' Hi.
      destruct (decide (currentQuestionIndex s = i)) as [<-|Hne].
      * rewrite get_set_eq. by eexists.
      * rewrite get_set_ne by done.
        destruct Hi as [Hi|[_ ?]]; [|done]. eapply I; eauto.
  - (* previous question *)
    match goal with H : currentQuestion questions s = Some q |- _ => rename H into Hq end.
    pose proof (lookup_lt_Some _ _ _ Hq).
    split; fields.
    + intros _. lia.
    + done.
    + apply I.
    + apply I.
    + apply I.
    + intros i q' Hq' Hmc' [Hi|[_ ?]]; [|done].
      eapply I; eauto. left. lia.
  - (* next question *)
    match goal with H : currentQuestion questions s = Some q |- _ => rename H into Hq end.
    match goal with H : nextEnabled _ _ |- _ => rename H into Hn end.
    split; fields.
    + intros _. lia.
    + done.
    + apply I.
    + apply I.
    + apply I.
    + intros i q' Hq' Hmc' [Hi|[_ ?]]; [|done].
      destruct (decide (i = currentQuestionIndex s)) as [->|Hne].
      * unfold currentQuestion in Hq.
        assert (q' = q) as -> by congruence.
        by eapply nextEnabled_assessed.
      * eapply I; eauto. left. lia.
  - (* the report is submitted *)
    match goal with H : currentQuestion questions s = Some q |- _ => rename H into Hq end.
    match goal with H : nextEnabled _ _ |- _ => rename H into Hn end.
    pose proof (lookup_lt_Some _ _ _ Hq).
    split; fields.
    + apply I.
    + intros _. lia.
    + apply I.
    + apply I.
    + apply I.
    + intros i q' Hq' Hmc' [Hi|[-> _]].
      * eapply I; eauto.
      * unfold currentQuestion in Hq.
        assert (q' = q) as -> by congruence.
        by eapply nextEnabled_assessed.
Qed.

Lemma reachable_invariant s : reachable questions s -> invariant questions s.
Proof.
  induction 1 as [|s e _ IH]; [apply invariant_start | by apply invariant_step].
Qed.

(** *** Navigation *)

Lemma step_index s e :
  let i := currentQuestionIndex s in
  let i' := currentQuestionIndex (fst (step questions s e)) in
  i' = i \/ (e = ClickNext /\ i' = i + 1) \/ (e = ClickPrev /\ i' + 1 = i).
Proof.
  cbn zeta. by_transition s e; auto.
  right; right. split; [done|lia].
Qed.

Lemma step_completed s e : showResults s = true -> step questions s e = (s, []).
Proof. intros H. apply step_idle. unfold dispatch. by rewrite H. Qed.

Lemma step_prev_first s : currentQuestionIndex s = 0 -> step questions s ClickPrev = (s, []).
Proof.
  intros H. apply step_idle. unfold dispatch.
  destruct (showResults s); [done|].
  destruct (currentQuestion questions s); [|done].
  by rewrite bool_decide_eq_true_2.
Qed.

Lemma step_prev s q :
  showResults s = false -> currentQuestion questions s = Some q ->
  0 < currentQuestionIndex s ->
  currentQuestionIndex (fst (step questions s ClickPrev)) = currentQuestionIndex s - 1
  /\ reports (snd (step questions s ClickPrev)) = [].
Proof.
  intros Hshow Hq Hpos. unfold step, dispatch.
  rewrite Hshow, Hq. rewrite bool_decide_eq_false_2 by lia.
  unfold Button, control, handlePrev. rewrite decide_True by done.
  rewrite depsChanged_index by (cbn; lia). cbn [fst snd].
  fold (resync questions (commit s [setCurrentQuestionIndex (fun prev => prev - 1)])).
  by rewrite resync_index.
Qed.

Lemma dispatch_next s q :
  showResults s = false -> currentQuestion questions s = Some q -> nextEnabled q s ->
  dispatch questions s ClickNext = handleNext questions s.
Proof.
  intros Hshow Hq [Hc Hn]. unfold dispatch.
  by rewrite Hshow, Hq, Hc, Hn.
Qed.

Lemma step_next s q :
  showResults s = false -> currentQuestion questions s = Some q -> nextEnabled q s ->
  currentQuestionIndex s < length questions - 1 ->
  currentQuestionIndex (fst (step questions s ClickNext)) = currentQuestionIndex s + 1
  /\ showResults (fst (step questions s ClickNext)) = false
  /\ reports (snd (step questions s ClickNext)) = [].
Proof.
  intros Hshow Hq Hn Hlt. unfold step.
  rewrite (dispatch_next s q) by done.
  unfold handleNext. rewrite decide_True by done.
  rewrite depsChanged_index by (cbn; lia). cbn [fst snd].
  fold (resync questions (commit s [setCurrentQuestionIndex (fun prev => prev + 1)])).
  by rewrite resync_index, resync_showResults.
Qed.

Lemma step_submit s q :
  showResults s = false -> currentQuestion questions s = Some q -> nextEnabled q s ->
  ~ currentQuestionIndex s < length questions - 1 ->
  step questions s ClickNext =
    (mkState (currentQuestionIndex s) (userAnswers s) (checkedStates s) true
             (tempShortAnswer s) (selfAssessedCorrectness s),
     [setShowResults true;
      onSubmit (scorePercentage questions s) (correctCount questions s)
               (length questions) (userAnswers s)
               (val <$> calculatedCorrectness questions s)]).
Proof.
  intros Hshow Hq Hn Hlt. unfold step.
  rewrite (dispatch_next s q) by done.
  unfold handleNext. rewrite decide_False by done.
  by rewrite depsChanged_none.
Qed.

Lemma step_next_blocked s q :
  currentQuestion questions s = Some q -> isNextButtonDisabled q s = true ->
  step questions s ClickNext = (s, []).
Proof.
  intros Hq Hn. apply step_idle. unfold dispatch.
  rewrite Hq, Hn. destruct (showResults s); [done|].
  by destruct (isAnswerChecked s).
Qed.

(** *** Whole sessions *)

Lemma run_completed s es : showResults s = true -> run questions s es = (s, []).
Proof.
  intros H. induction es as [|e es IH]; [done|].
  cbn [run]. rewrite step_completed by done. cbn [fst snd]. by rewrite IH.
Qed.

Lemma reports_app cs cs' : reports (cs ++ cs') = reports cs ++ reports cs'.
Proof. apply List.filter_app. Qed.

Lemma step_reports s e :
  showResults s = false ->
  let r := step questions s e in
  (showResults (fst r) = false /\ reports (snd r) = [])
  \/ (showResults (fst r) = true /\ length (reports (snd r)) = 1).
Proof.
  intros Hshow. cbn zeta. by_transition s e; auto.
  - left. split; [done|]. unfold handleCheckAnswer. by destruct (isMcOrOx q).
  - left. split; [done|]. unfold handlePrev. by case_decide.
  - left. split; [done|]. unfold handleNext. by rewrite decide_True.
  - right. split; [done|]. unfold handleNext. by rewrite decide_False.
Qed.

Lemma run_reports s es :
  showResults s = false ->
  length (reports (snd (run questions s es)))
  = if showResults (fst (run questions s es)) then 1 else 0.
Proof.
  revert s. induction es as [|e es IH]; intros s Hshow.
  { cbn. by rewrite Hshow. }
  cbn [run fst snd]. rewrite reports_app, length_app.
  destruct (step_reports s e Hshow) as [[H1 H2]|[H1 H2]].
  - rewrite H2. by apply IH.
  - rewrite run_completed by done. cbn [fst snd]. by rewrite H1, H2.
Qed.

(** *** The report *)

Lemma calculatedCorrectness_lookup s i q :
  questions !! i = Some q ->
  calculatedCorrectness questions s !! i
  = Some (if isMcOrOx q
          then isAnswerMatch (get (userAnswers s) i) (answer q)
          else is_true (get (selfAssessedCorrectness s) i)).
Proof.
  intros Hq. unfold calculatedCorrectness.
  rewrite list_lookup_imap, Hq. cbn. by destruct (isMcOrOx q).
Qed.

Lemma length_calculatedCorrectness s :
  length (calculatedCorrectness questions s) = length questions.
Proof. apply length_imap. Qed.

Lemma count_true_val (l : list bool) :
  length (List.filter (fun c => Bool.eqb c true) l)
  = length (filter (fun c => c = val true) (val <$> l)).
Proof.
  induction l as [|[] l IH]; [done| |].
  - cbn [List.filter Bool.eqb fmap list_fmap]. rewrite filter_cons_True by done.
    cbn. by rewrite IH.
  - cbn [List.filter Bool.eqb fmap list_fmap]. by rewrite filter_cons_False.
Qed.

Lemma count_true_le (l : list bool) :
  length (List.filter (fun c => Bool.eqb c true) l) <= length l.
Proof. induction l as [|[] l IH]; cbn; lia. Qed.

Lemma correctCount_le s : correctCount questions s <= length questions.
Proof.
  unfold correctCount. rewrite <- (length_calculatedCorrectness s).
  apply count_true_le.
Qed.

(** *** The shape invariant *)

Lemma resync_draft s q :
  currentQuestion questions s = Some q ->
  tempShortAnswer (resync questions s)
  = if isMcOrOx q then []
    else or_empty (get (userAnswers s) (currentQuestionIndex s)).
Proof.
  intros Hq. unfold resync, syncTempShortAnswer. rewrite Hq.
  by destruct (isMcOrOx q).
Qed.

Lemma resync_currentQuestion s :
  currentQuestion questions (resync questions s) = currentQuestion questions s.
Proof. unfold currentQuestion. by rewrite resync_index. Qed.

Lemma resync_isAnswerChecked s :
  isAnswerChecked (resync questions s) = isAnswerChecked s.
Proof. unfold isAnswerChecked. by rewrite resync_index, resync_checkedStates. Qed.

Lemma checked_true s :
  isAnswerChecked s = true ->
  get (checkedStates s) (currentQuestionIndex s) = val true.
Proof.
  unfold isAnswerChecked.
  by destruct (get (checkedStates s) (currentQuestionIndex s)) as [| |[]].
Qed.

Lemma shaped_start : shaped questions (start questions).
Proof.
  destruct start_fields as (Hi & Hua & Hcs & Hs & Hsa).
  split; rewrite ?Hi, ?Hs, ?Hsa, ?Hua, ?Hcs, ?length_filled; try done.
  - intros i Hlt. left. by apply get_filled.
  - lia.
  - intros i q Hq. rewrite get_filled by (by eapply lookup_lt_Some). done.
  - intros i q Hq _. left. apply get_filled. by eapply lookup_lt_Some.
  - intros i q Hq _ _. apply get_filled. by eapply lookup_lt_Some.
  - intros i b. unfold get, filled. intros H.
    destruct (replicate (length questions) null !! i) as [x|] eqn:Hx; [|done].
    apply lookup_replicate in Hx as [-> _]. done.
Qed.

Lemma draftSynced_start : draftSynced questions (start questions).
Proof.
  intros q Hq. unfold start in Hq |- *.
  fold (resync questions (init questions)) in Hq |- *.
  rewrite resync_currentQuestion in Hq.
  rewrite (resync_draft _ q Hq), resync_isAnswerChecked.
  destruct (isMcOrOx q); [done|].
  unfold isAnswerChecked. cbn. rewrite get_filled; [done|].
  by eapply lookup_lt_Some.
Qed.

Lemma shaped_ext s s' :
  currentQuestionIndex s' = currentQuestionIndex s ->
  userAnswers s' = userAnswers s ->
  checkedStates s' = checkedStates s ->
  selfAssessedCorrectness s' = selfAssessedCorrectness s ->
  (showResults s' = true ->
   get (checkedStates s) (currentQuestionIndex s) = val true) ->
  shaped questions s -> shaped questions s'.
Proof.
  intros Hi Hua Hcs Hsa Hs H. split; rewrite ?Hi, ?Hua, ?Hcs, ?Hsa; try apply H.
  done.
Qed.

Lemma shaped_resync s : shaped questions s -> shaped questions (resync questions s).
Proof.
  intros H. apply (shaped_ext s); fields; try done. apply H.
Qed.

Lemma current_lt s q :
  currentQuestion questions s = Some q -> currentQuestionIndex s < length questions.
Proof. apply lookup_lt_Some. Qed.

Lemma current_same s q i q' :
  currentQuestion questions s = Some q -> questions !! i = Some q' ->
  currentQuestionIndex s = i -> q' = q.
Proof. unfold currentQuestion. intros Hq Hq' <-. congruence. Qed.

Ltac at_index s i :=
  destruct (decide (currentQuestionIndex s = i)) as [?|?];
  [subst i; rewrite ?get_set_eq;
   repeat match goal with
          | H : context [get (set _ _ _) _] |- _ => rewrite get_set_eq in H
          end
  | rewrite ?get_set_ne by done;
    repeat match goal with
           | H : context [get (set _ _ _) _] |- _ =>
               rewrite get_set_ne in H by done
           end].

Lemma shaped_select s q k o :
  shaped questions s ->
  currentQuestion questions s = Some q -> isMcOrOx q = true ->
  renderedOptions q !! k = Some o -> isAnswerChecked s = false ->
  shaped questions
    (mkState (currentQuestionIndex s)
             (set (userAnswers s) (currentQuestionIndex s) (val o))
             (checkedStates s) false (tempShortAnswer s)
             (selfAssessedCorrectness s)).
Proof.
  intros H Hq Hmc Ho Hc. pose proof (current_lt s q Hq) as Hlt.
  split; cbn [currentQuestionIndex userAnswers checkedStates showResults
              tempShortAnswer selfAssessedCorrectness]; try apply H; try done.
  - rewrite length_set; [apply H|]. by rewrite (sh_answers _ _ H).
  - intros i q' Hq' Hi.
    rewrite get_set_ne by (by apply checked_not_current). by apply H.
  - intros i q' Hq' Hmc'. at_index s i.
    + right. rewrite (current_same s q _ q' Hq Hq' eq_refl).
      exists o. split; [done|]. rewrite Hmc. by eapply list_elem_of_lookup_2.
    + by apply H.
  - intros i q' Hq' Hmc' Hi. at_index s i.
    + rewrite (current_same s q _ q' Hq Hq' eq_refl) in Hmc'. congruence.
    + by eapply H.
Qed.

Lemma shaped_check s q :
  shaped questions s ->
  currentQuestion questions s = Some q ->
  isAnswerChecked s = false -> hasAnswer q s = true ->
  shaped questions
    (mkState (currentQuestionIndex s)
             (if isMcOrOx q then userAnswers s
              else set (userAnswers s) (currentQuestionIndex s)
                       (val (tempShortAnswer s)))
             (set (checkedStates s) (currentQuestionIndex s) (val true))
             false (tempShortAnswer s) (selfAssessedCorrectness s)).
Proof.
  intros H Hq Hc Ha. pose proof (current_lt s q Hq) as Hlt.
  assert (forall i, currentQuestionIndex s <> i ->
            get (if isMcOrOx q then userAnswers s
                 else set (userAnswers s) (currentQuestionIndex s)
                          (val (tempShortAnswer s))) i
            = get (userAnswers s) i) as Hother.
  { intros i Hne. destruct (isMcOrOx q); [done|]. by apply get_set_ne. }
  split; cbn [currentQuestionIndex userAnswers checkedStates showResults
              tempShortAnswer selfAssessedCorrectness]; try apply H; try done.
  - destruct (isMcOrOx q); [apply H|].
    rewrite length_set; [apply H|]. by rewrite (sh_answers _ _ H).
  - rewrite length_set; [apply H|]. by rewrite (sh_checked _ _ H).
  - intros i Hi. at_index s i; [by right | by apply H].
  - intros i Hi. rewrite get_set_ne by lia. by apply H.
  - intros i q' Hq' Hi. at_index s i.
    + rewrite (current_same s q _ q' Hq Hq' eq_refl).
      unfold hasAnswer, userAnswer in Ha. unfold answered.
      destruct (isMcOrOx q) eqn:Hmc.
      * destruct (sh_choice _ _ H _ q Hq Hmc) as [Hn|Hans].
        -- by rewrite Hn in Ha.
        -- unfold answered in Hans. by rewrite Hmc in Hans.
      * rewrite get_set_eq. exists (tempShortAnswer s). split; [done|].
        by case_bool_decide.
    + rewrite Hother by done. by apply H.
  - intros i q' Hq' Hmc'. at_index s i.
    + assert (q' = q) as -> by (by eapply current_same).
      rewrite Hmc'. by apply H.
    + rewrite Hother by done. by apply H.
  - intros i q' Hq' Hmc' Hi. at_index s i; [done|].
    rewrite Hother by done. by eapply H.
  - intros i b Hb. at_index s i; [done|]. by eapply (sh_graded _ _ H).
Qed.

Lemma shaped_assess s q isCorrect :
  shaped questions s ->
  currentQuestion questions s = Some q -> isAnswerChecked s = true ->
  shaped questions
    (mkState (currentQuestionIndex s) (userAnswers s) (checkedStates s) false
             (tempShortAnswer s)
             (set (selfAssessedCorrectness s) (currentQuestionIndex s)
                  (val isCorrect))).
Proof.
  intros H Hq Hc. pose proof (current_lt s q Hq) as Hlt.
  split; cbn [currentQuestionIndex userAnswers checkedStates showResults
              tempShortAnswer selfAssessedCorrectness]; try apply H; try done.
  - rewrite length_set; [apply H|]. by rewrite (sh_assessed _ _ H).
  - intros i b Hb.
    destruct (decide (currentQuestionIndex s = i)) as [<-|Hne].
    + by apply checked_true.
    + rewrite get_set_ne in Hb by done. by eapply (sh_graded _ _ H).
Qed.

Lemma shaped_step s e :
  shaped questions s -> shaped questions (fst (step questions s e)).
Proof.
  intros H.
  destruct (step_transition s e)
    as [e Hd | q k o Hshow Hq Hmc Ho Hc ua | q value Hshow Hq Hmc Hc
        | q Hshow Hq Hc Ha ua cs | q isCorrect Hshow Hq Hmc Hc Hsa sa
        | q Hshow Hq Hpos | q Hshow Hq Hn Hlt | q Hshow Hq Hn Hlt];
    unlet.
  - done.
  - apply shaped_resync. by apply (shaped_select s q k o).
  - by apply (shaped_ext s).
  - apply shaped_resync. by apply (shaped_check s q).
  - by apply (shaped_assess s q).
  - apply shaped_resync.
    split; cbn [currentQuestionIndex userAnswers checkedStates showResults
                tempShortAnswer selfAssessedCorrectness]; try apply H; try done.
    intros i Hi. apply H. lia.
  - apply shaped_resync.
    split; cbn [currentQuestionIndex userAnswers checkedStates showResults
                tempShortAnswer selfAssessedCorrectness]; try apply H; try done.
    intros i Hi. destruct (decide (i = currentQuestionIndex s)) as [->|Hne].
    + apply checked_true. apply Hn.
    + apply H. lia.
  - apply (shaped_ext s); try done. intros _. apply checked_true. apply Hn.
Qed.

Lemma reachable_shaped s : reachable questions s -> shaped questions s.
Proof.
  induction 1 as [|s e _ IH]; [apply shaped_start | by apply shaped_step].
Qed.

(** *** The draft invariant *)

Lemma draftSynced_resync s :
  (forall q,
      currentQuestion questions s = Some q -> isMcOrOx q = false ->
      isAnswerChecked s = true ->
      exists a, get (userAnswers s) (currentQuestionIndex s) = val a) ->
  draftSynced questions (resync questions s).
Proof.
  intros H q Hq. rewrite resync_currentQuestion in Hq.
  rewrite (resync_draft s q Hq), resync_isAnswerChecked, resync_index,
    resync_userAnswers.
  destruct (isMcOrOx q) eqn:Hmc; [done|].
  intros Hc. by destruct (H q Hq Hmc Hc) as [a ->].
Qed.

Lemma checked_answer_held s q :
  shaped questions s ->
  currentQuestion questions s = Some q -> isAnswerChecked s = true ->
  exists a, get (userAnswers s) (currentQuestionIndex s) = val a.
Proof.
  intros H Hq Hc.
  destruct (sh_answer _ _ H _ q Hq (checked_true s Hc)) as (a & Ha & _).
  by exists a.
Qed.

Lemma draftSynced_step s e :
  shaped questions s -> draftSynced questions s ->
  draftSynced questions (fst (step questions s e)).
Proof.
  intros H D. pose proof (shaped_step s e H) as H'. revert H'.
  destruct (step_transition s e)
    as [e Hd | q k o Hshow Hq Hmc Ho Hc ua | q value Hshow Hq Hmc Hc
        | q Hshow Hq Hc Ha ua cs | q isCorrect Hshow Hq Hmc Hc Hsa sa
        | q Hshow Hq Hpos | q Hshow Hq Hn Hlt | q Hshow Hq Hn Hlt];
    unlet; intros H'.
  - done.
  - apply draftSynced_resync. intros q' Hq' Hmc' _.
    assert (q' = q) as -> by (unfold currentQuestion in *; cbn in Hq'; congruence).
    congruence.
  - intros q' Hq'.
    assert (q' = q) as -> by (unfold currentQuestion in *; cbn in Hq'; congruence).
    rewrite Hmc. unfold isAnswerChecked in *. cbn. by rewrite Hc.
  - apply draftSynced_resync. intros q' Hq' Hmc' _.
    assert (q' = q) as -> by (unfold currentQuestion in *; cbn in Hq'; congruence).
    cbn. rewrite Hmc', get_set_eq. by eexists.
  - intros q' Hq'. apply (D q' Hq').
  - apply draftSynced_resync. intros q' Hq' _ Hc'.
    apply (checked_answer_held _ q'); [|done|done].
    match type of H' with
    | shaped _ (resync _ ?s1) =>
        by apply (shaped_ext (resync questions s1)); fields
    end.
  - apply draftSynced_resync. intros q' Hq' _ Hc'.
    apply (checked_answer_held _ q'); [|done|done].
    match type of H' with
    | shaped _ (resync _ ?s1) =>
        by apply (shaped_ext (resync questions s1)); fields
    end.
  - intros q' Hq'. apply (D q' Hq').
Qed.

Lemma reachable_draftSynced s : reachable questions s -> draftSynced questions s.
Proof.
  induction 1 as [|s e Hr IH]; [apply draftSynced_start|].
  apply draftSynced_step; [by apply reachable_shaped | done].
Qed.

(** *** Each enabled event, as an equation *)

Lemma step_select_eq s q k o :
  showResults s = false -> currentQuestion questions s = Some q ->
  isMcOrOx q = true -> renderedOptions q !! k = Some o ->
  isAnswerChecked s = false ->
  fst (step questions s (ClickOption k))
  = resync questions
      (mkState (currentQuestionIndex s)
               (set (userAnswers s) (currentQuestionIndex s) (val o))
               (checkedStates s) false (tempShortAnswer s)
               (selfAssessedCorrectness s)).
Proof.
  intros Hshow Hq Hmc Ho Hc. unfold step, dispatch.
  rewrite Hshow, Hq, Hmc, Ho. unfold control, handleAnswerSelect. rewrite Hc.
  rewrite depsChanged_touch by done. cbn. by rewrite Hshow.
Qed.

Lemma step_type_eq s q value :
  showResults s = false -> currentQuestion questions s = Some q ->
  isMcOrOx q = false -> isAnswerChecked s = false ->
  fst (step questions s (ChangeShortAnswer value))
  = mkState (currentQuestionIndex s) (userAnswers s) (checkedStates s) false
            value (selfAssessedCorrectness s).
Proof.
  intros Hshow Hq Hmc Hc. unfold step, dispatch.
  rewrite Hshow, Hq, Hmc. unfold control, handleShortAnswerChange. rewrite Hc.
  rewrite depsChanged_none by done. cbn. by rewrite Hshow.
Qed.

Lemma step_check_eq s q :
  showResults s = false -> currentQuestion questions s = Some q ->
  isAnswerChecked s = false -> hasAnswer q s = true ->
  fst (step questions s ClickCheckAnswer)
  = resync questions
      (mkState (currentQuestionIndex s)
               (if isMcOrOx q then userAnswers s
                else set (userAnswers s) (currentQuestionIndex s)
                         (val (tempShortAnswer s)))
               (set (checkedStates s) (currentQuestionIndex s) (val true))
               false (tempShortAnswer s) (selfAssessedCorrectness s)).
Proof.
  intros Hshow Hq Hc Ha. unfold step, dispatch.
  rewrite Hshow, Hq, Hc. unfold Button, control, isCheckAnswerDisabled.
  rewrite Ha. cbn [negb].
  rewrite depsChanged_touch
    by (unfold handleCheckAnswer; rewrite existsb_app; apply orb_true_r).
  unfold handleCheckAnswer. destruct (isMcOrOx q); cbn; by rewrite Hshow.
Qed.

Lemma step_assess_eq s q isCorrect :
  showResults s = false -> currentQuestion questions s = Some q ->
  isMcOrOx q = false -> isAnswerChecked s = true ->
  get (selfAssessedCorrectness s) (currentQuestionIndex s) = null ->
  fst (step questions s (ClickSelfAssessment isCorrect))
  = mkState (currentQuestionIndex s) (userAnswers s) (checkedStates s) false
            (tempShortAnswer s)
            (set (selfAssessedCorrectness s) (currentQuestionIndex s)
                 (val isCorrect)).
Proof.
  intros Hshow Hq Hmc Hc Hsa. unfold step, dispatch.
  rewrite Hshow, Hq, Hmc, Hc, Hsa. unfold Button, control, handleSelfAssessment.
  cbn [andb is_null]. rewrite depsChanged_none by done. cbn. by rewrite Hshow.
Qed.

Lemma step_prev_eq s q :
  showResults s = false -> currentQuestion questions s = Some q ->
  0 < currentQuestionIndex s ->
  fst (step questions s ClickPrev)
  = resync questions
      (mkState (currentQuestionIndex s - 1) (userAnswers s) (checkedStates s)
               false (tempShortAnswer s) (selfAssessedCorrectness s)).
Proof.
  intros Hshow Hq Hpos. unfold step, dispatch.
  rewrite Hshow, Hq. rewrite bool_decide_eq_false_2 by lia.
  unfold Button, control, handlePrev. rewrite decide_True by done.
  rewrite depsChanged_index by (cbn; lia). cbn. by rewrite Hshow.
Qed.

Lemma step_next_eq s q :
  showResults s = false -> currentQuestion questions s = Some q ->
  nextEnabled q s -> currentQuestionIndex s < length questions - 1 ->
  fst (step questions s ClickNext)
  = resync questions
      (mkState (currentQuestionIndex s + 1) (userAnswers s) (checkedStates s)
               false (tempShortAnswer s) (selfAssessedCorrectness s)).
Proof.
  intros Hshow Hq Hn Hlt. unfold step.
  rewrite (dispatch_next s q) by done.
  unfold handleNext. rewrite decide_True by done.
  rewrite depsChanged_index by (cbn; lia). cbn. by rewrite Hshow.
Qed.

(** *** Self-assessment, once given *)

Lemma step_assessed_frozen s e i b :
  get (selfAssessedCorrectness s) i = val b ->
  get (selfAssessedCorrectness (fst (step questions s e))) i = val b.
Proof.
  intros Hi. by_transition s e; try done.
  rewrite get_set_ne; [done|]. congruence.
Qed.

Lemma run_assessed_frozen s es i b :
  get (selfAssessedCorrectness s) i = val b ->
  get (selfAssessedCorrectness (fst (run questions s es))) i = val b.
Proof.
  revert s. induction es as [|e es IH]; intros s Hi; [done|].
  cbn [run fst]. apply IH. by apply step_assessed_frozen.
Qed.

(** ** The session: further properties *)


(** X2: no question is skipped: in every reachable state every question
    before the current one is checked, and in a completed session every
    question is checked. *)
Theorem no_question_is_skipped s :
  reachable questions s ->
  (forall i, i < currentQuestionIndex s -> get (checkedStates s) i = val true)
  /\ (completed s ->
      forall i, i < length questions -> get (checkedStates s) i = val true).
Proof.
  intros Hr. pose proof (reachable_shaped s Hr) as H.
  pose proof (reachable_invariant s Hr) as I.
  split; [apply H|]. intros Hdone i Hi.
  pose proof (inv_done _ _ I Hdone) as Hlast.
  destruct (decide (i = currentQuestionIndex s)) as [->|Hne].
  - by apply (sh_done _ _ H).
  - apply (sh_passed _ _ H). lia.
Qed.


(** X4: a self-assessment, once given, is final: the two buttons are only
    rendered while the slot is null, so no event and no sequence of events
    changes it. [handleSelfAssessment] itself overwrites: called twice, the
    second value stands. *)
Theorem self_assessment_is_final s i b :
  get (selfAssessedCorrectness s) i = val b ->
  (forall es,
      get (selfAssessedCorrectness (fst (run questions s es))) i = val b)
  /\ (currentQuestionIndex s = i ->
      forall b', step questions s (ClickSelfAssessment b') = (s, []))
  /\ (forall b1 b2,
        get (selfAssessedCorrectness
               (commit (commit s (handleSelfAssessment s b1))
                       (handleSelfAssessment
                          (commit s (handleSelfAssessment s b1)) b2)))
            (currentQuestionIndex s)
        = val b2).
Proof.
  intros Hi. split; [|split].
  - intros es. by apply run_assessed_frozen.
  - intros <- b'. apply step_idle. unfold dispatch.
    destruct (showResults s); [done|].
    destruct (currentQuestion questions s) as [q|]; [|done].
    destruct (isMcOrOx q); [done|]. rewrite Hi. cbn.
    by rewrite andb_false_r.
  - intros b1 b2. cbn. apply get_set_eq.
Qed.

(** X5: in every reachable state the draft agrees with the current
    question: it is empty on a multiple-choice or ox question, and on a
    checked question of another type it is the committed answer, so the
    disabled input shows what was recorded. *)
Theorem draft_follows_current_question s q :
  reachable questions s ->
  currentQuestion questions s = Some q ->
  (isMcOrOx q = true -> tempShortAnswer s = [])
  /\ (isMcOrOx q = false -> isAnswerChecked s = true ->
      get (userAnswers s) (currentQuestionIndex s) = val (tempShortAnswer s)).
Proof.
  intros Hr Hq. pose proof (reachable_draftSynced s Hr q Hq) as D.
  destruct (isMcOrOx q); split; try done; auto.
Qed.

Lemma unchecked_null s q :
  shaped questions s -> currentQuestion questions s = Some q ->
  isAnswerChecked s = false ->
  get (checkedStates s) (currentQuestionIndex s) = null.
Proof.
  intros H Hq Hc.
  destruct (sh_flag _ _ H _ (current_lt s q Hq)) as [Hn|Ht]; [done|].
  unfold isAnswerChecked in Hc. by rewrite Ht in Hc.
Qed.

(** X6: a draft that was typed but not checked is lost on navigation: on
    an unchecked question that is neither multiple-choice nor ox, after
    typing, going to the previous question and coming back, the draft is
    empty again and nothing else has changed. *)
Theorem unchecked_draft_is_lost_on_navigation s q value :
  reachable questions s ->
  showResults s = false -> currentQuestion questions s = Some q ->
  isMcOrOx q = false -> isAnswerChecked s = false ->
  0 < currentQuestionIndex s ->
  fst (run questions s [ChangeShortAnswer value; ClickPrev; ClickNext])
  = mkState (currentQuestionIndex s) (userAnswers s) (checkedStates s) false
            [] (selfAssessedCorrectness s).
Proof.
  intros Hr Hshow Hq Hmc Hc Hpos.
  pose proof (reachable_shaped s Hr) as H.
  pose proof (reachable_invariant s Hr) as I.
  pose proof (current_lt s q Hq) as Hlt.
  cbn [run fst].
  rewrite (step_type_eq s q) by done.
  rewrite (step_prev_eq _ q) by done.
  cbn [currentQuestionIndex userAnswers checkedStates tempShortAnswer
       selfAssessedCorrectness].
  destruct (lookup_lt_is_Some_2 questions (currentQuestionIndex s - 1))
    as [qp Hqp]; [lia|].
  set (s1 := mkState (currentQuestionIndex s - 1) (userAnswers s)
                     (checkedStates s) false value (selfAssessedCorrectness s)).
  assert (get (checkedStates s) (currentQuestionIndex s - 1) = val true) as Hcp
    by (apply (sh_passed _ _ H); lia).
  assert (nextEnabled qp (resync questions s1)) as Hn.
  { split.
    - rewrite resync_isAnswerChecked. unfold isAnswerChecked. cbn. by rewrite Hcp.
    - unfold isNextButtonDisabled. rewrite resync_isAnswerChecked, resync_index,
        resync_selfAssessed. cbn.
      destruct (isMcOrOx qp) eqn:Hmp; [by rewrite andb_false_r|].
      destruct (inv_passed _ _ I _ qp Hqp Hmp) as [b ->]; [left; lia|].
      by rewrite andb_false_r. }
  rewrite (step_next_eq _ qp); try done.
  - rewrite resync_index, resync_userAnswers, resync_checkedStates,
      resync_selfAssessed. cbn.
    replace (currentQuestionIndex s - 1 + 1) with (currentQuestionIndex s) by lia.
    unfold resync at 1, syncTempShortAnswer, currentQuestion. cbn.
    unfold currentQuestion in Hq. rewrite Hq, Hmc. cbn.
    by rewrite (sh_blank _ _ H _ q Hq Hmc (unchecked_null s q H Hq Hc)).
  - by rewrite resync_showResults.
  - by rewrite resync_currentQuestion.
  - rewrite resync_index. cbn. lia.
Qed.

(** X7: what is typed is what is recorded: on an unchecked question that
    is neither multiple-choice nor ox, typing a text that is not all white
    space and pressing check stores exactly that text, untrimmed, as the
    answer, marks the question checked and changes no other slot; with a
    text of white space only the check button is disabled and only the
    draft changes. *)
Theorem typed_answer_is_recorded_verbatim s q value :
  showResults s = false -> currentQuestion questions s = Some q ->
  isMcOrOx q = false -> isAnswerChecked s = false ->
  (trim value <> [] ->
   fst (run questions s [ChangeShortAnswer value; ClickCheckAnswer])
   = mkState (currentQuestionIndex s)
             (set (userAnswers s) (currentQuestionIndex s) (val value))
             (set (checkedStates s) (currentQuestionIndex s) (val true))
             false value (selfAssessedCorrectness s))
  /\ (trim value = [] ->
      fst (run questions s [ChangeShortAnswer value; ClickCheckAnswer])
      = mkState (currentQuestionIndex s) (userAnswers s) (checkedStates s)
                false value (selfAssessedCorrectness s)).
Proof.
  intros Hshow Hq Hmc Hc. cbn [run fst].
  rewrite (step_type_eq s q) by done. split; intros Ht.
  - rewrite (step_check_eq _ q); try done.
    + cbn. rewrite Hmc. unfold resync, syncTempShortAnswer, currentQuestion.
      cbn. unfold currentQuestion in Hq. rewrite Hq, Hmc. cbn.
      by rewrite get_set_eq.
    + unfold hasAnswer. rewrite Hmc. cbn. by rewrite bool_decide_eq_false_2.
  - rewrite step_idle; [done|]. unfold dispatch. cbn.
    unfold currentQuestion in *. cbn. rewrite Hq.
    unfold isAnswerChecked in *. cbn. rewrite Hc.
    unfold Button, control, isCheckAnswerDisabled, hasAnswer. rewrite Hmc. cbn.
    by rewrite bool_decide_eq_true_2.
Qed.

(** X8: before the check the last selection wins: on an unchecked
    multiple-choice or ox question, selecting option [j], then option [k],
    then pressing check records option [k], marks the question checked and
    changes no other slot. *)
Theorem last_selection_is_recorded s q j k oj ok :
  showResults s = false -> currentQuestion questions s = Some q ->
  isMcOrOx q = true -> isAnswerChecked s = false ->
  renderedOptions q !! j = Some oj -> renderedOptions q !! k = Some ok ->
  let s' := fst (run questions s [ClickOption j; ClickOption k;
                                  ClickCheckAnswer]) in
  currentQuestionIndex s' = currentQuestionIndex s
  /\ (forall i, get (userAnswers s') i
                = if decide (i = currentQuestionIndex s) then val ok
                  else get (userAnswers s) i)
  /\ (forall i, get (checkedStates s') i
                = if decide (i = currentQuestionIndex s) then val true
                  else get (checkedStates s) i)
  /\ selfAssessedCorrectness s' = selfAssessedCorrectness s
  /\ showResults s' = false.
Proof.
  intros Hshow Hq Hmc Hc Hj Hk. cbn zeta. cbn [run fst].
  rewrite (step_select_eq s q j oj) by done.
  set (s1 := mkState (currentQuestionIndex s)
                     (set (userAnswers s) (currentQuestionIndex s) (val oj))
                     (checkedStates s) false (tempShortAnswer s)
                     (selfAssessedCorrectness s)).
  assert (showResults (resync questions s1) = false) as Hshow1
    by (by rewrite resync_showResults).
  assert (currentQuestion questions (resync questions s1) = Some q) as Hq1
    by (by rewrite resync_currentQuestion).
  assert (isAnswerChecked (resync questions s1) = false) as Hc1
    by (by rewrite resync_isAnswerChecked).
  rewrite (step_select_eq _ q k ok Hshow1 Hq1 Hmc Hk Hc1).
  rewrite resync_index, resync_userAnswers, resync_checkedStates,
    resync_selfAssessed. cbn [s1 currentQuestionIndex userAnswers checkedStates
                              tempShortAnswer selfAssessedCorrectness].
  set (s2 := mkState _ _ _ _ _ _).
  assert (showResults (resync questions s2) = false) as Hshow2
    by (by rewrite resync_showResults).
  assert (currentQuestion questions (resync questions s2) = Some q) as Hq2
    by (by rewrite resync_currentQuestion).
  assert (isAnswerChecked (resync questions s2) = false) as Hc2
    by (by rewrite resync_isAnswerChecked).
  assert (hasAnswer q (resync questions s2) = true) as Ha2.
  { unfold hasAnswer, userAnswer. rewrite Hmc, resync_index, resync_userAnswers.
    cbn. by rewrite get_set_eq. }
  rewrite (step_check_eq _ q Hshow2 Hq2 Hc2 Ha2). rewrite Hmc.
  clear Hshow1 Hq1 Hc1 Hshow2 Hq2 Hc2 Ha2. subst s2 s1. fields.
  split; [done|]. split; [|split; [|done]].
  - intros i. case_decide as Hi.
    + subst i. apply get_set_eq.
    + rewrite !get_set_ne by done. done.
  - intros i. case_decide as Hi.
    + subst i. apply get_set_eq.
    + by rewrite get_set_ne.
Qed.

(** *** Answering every question in turn *)

Lemma run_app s es es' :
  run questions s (es ++ es')
  = (fst (run questions (fst (run questions s es)) es'),
     snd (run questions s es) ++ snd (run questions (fst (run questions s es)) es')).
Proof.
  revert s. induction es as [|e es IH]; intros s; cbn [app run fst snd].
  - by destruct (run questions s es').
  - rewrite IH. cbn [fst snd]. by rewrite app_assoc.
Qed.

Ltac norm :=
  rewrite ?resync_index, ?resync_userAnswers, ?resync_checkedStates,
    ?resync_showResults, ?resync_selfAssessed, ?resync_currentQuestion,
    ?resync_isAnswerChecked;
  cbn [currentQuestionIndex userAnswers checkedStates showResults
       tempShortAnswer selfAssessedCorrectness].

Lemma leave_question s q :
  showResults s = false -> currentQuestion questions s = Some q ->
  nextEnabled q s ->
  (currentQuestionIndex s < length questions - 1 ->
   fst (step questions s ClickNext)
   = resync questions
       (mkState (currentQuestionIndex s + 1) (userAnswers s) (checkedStates s)
                false (tempShortAnswer s) (selfAssessedCorrectness s)))
  /\ (~ currentQuestionIndex s < length questions - 1 ->
      showResults (fst (step questions s ClickNext)) = true).
Proof.
  intros Hshow Hq Hn. split; intros Hlt.
  - by apply (step_next_eq s q).
  - by rewrite (step_submit s q).
Qed.

Lemma answer_choice s k q o :
  untouchedFrom questions k s -> questions !! k = Some q ->
  isMcOrOx q = true -> renderedOptions q !! 0 = Some o ->
  (k < length questions - 1 ->
   untouchedFrom questions (k + 1)
     (fst (run questions s [ClickOption 0; ClickCheckAnswer; ClickNext])))
  /\ (~ k < length questions - 1 ->
      showResults
        (fst (run questions s [ClickOption 0; ClickCheckAnswer; ClickNext]))
      = true).
Proof.
  intros (Hk & Hshow & Hun) Hq Hmc Ho.
  pose proof (lookup_lt_Some _ _ _ Hq) as Hlt.
  destruct (Hun k ltac:(lia) Hlt) as (Hua & Hcs & Hsa).
  destruct s as [idx ua cs show temp sa]. cbn in Hk, Hshow, Hun, Hua, Hcs, Hsa.
  subst idx show. cbn [run fst].
  rewrite (step_select_eq _ q 0 o); try done;
    [|unfold isAnswerChecked; cbn; by rewrite Hcs].
  cbn [currentQuestionIndex userAnswers checkedStates showResults
       tempShortAnswer selfAssessedCorrectness].
  set (s1 := resync questions _).
  assert (showResults s1 = false /\ currentQuestion questions s1 = Some q
          /\ isAnswerChecked s1 = false /\ hasAnswer q s1 = true) as (A1 & A2 & A3 & A4).
  { subst s1. norm. split; [reflexivity|]. split; [exact Hq|].
    split; [unfold isAnswerChecked; cbn; by rewrite Hcs|].
    unfold hasAnswer, userAnswer. rewrite Hmc. norm. by rewrite get_set_eq. }
  rewrite (step_check_eq s1 q A1 A2 A3 A4). rewrite Hmc.
  set (s2 := resync questions _).
  assert (showResults s2 = false /\ currentQuestion questions s2 = Some q
          /\ nextEnabled q s2) as (B1 & B2 & B3).
  { subst s2 s1. norm. split; [reflexivity|]. split; [exact Hq|]. split.
    - norm. unfold isAnswerChecked. cbn. by rewrite get_set_eq.
    - unfold isNextButtonDisabled. norm. rewrite Hmc. by rewrite andb_false_r. }
  destruct (leave_question s2 q B1 B2 B3) as [Hnext Hlast].
  assert (currentQuestionIndex s2 = k) as Hk2 by (subst s2 s1; by norm).
  rewrite Hk2 in Hnext, Hlast.
  split; intros Hb.
  - rewrite (Hnext Hb). clear Hnext Hlast A1 A2 A3 A4 B1 B2 B3 Hk2.
    subst s2 s1. unfold untouchedFrom. norm.
    split; [done|]. split; [done|].
    intros i Hi Hi'. rewrite !get_set_ne by lia. apply Hun; lia.
  - by apply Hlast.
Qed.

Lemma answer_text s k q :
  untouchedFrom questions k s -> questions !! k = Some q ->
  isMcOrOx q = false ->
  (k < length questions - 1 ->
   untouchedFrom questions (k + 1)
     (fst (run questions s [ChangeShortAnswer (lit "a"); ClickCheckAnswer;
                            ClickSelfAssessment true; ClickNext])))
  /\ (~ k < length questions - 1 ->
      showResults
        (fst (run questions s [ChangeShortAnswer (lit "a"); ClickCheckAnswer;
                               ClickSelfAssessment true; ClickNext]))
      = true).
Proof.
  intros (Hk & Hshow & Hun) Hq Hmc.
  pose proof (lookup_lt_Some _ _ _ Hq) as Hlt.
  destruct (Hun k ltac:(lia) Hlt) as (Hua & Hcs & Hsa).
  destruct s as [idx ua cs show temp sa]. cbn in Hk, Hshow, Hun, Hua, Hcs, Hsa.
  subst idx show. cbn [run fst].
  rewrite (step_type_eq _ q); try done;
    [|unfold isAnswerChecked; cbn; by rewrite Hcs].
  cbn [currentQuestionIndex userAnswers checkedStates showResults
       tempShortAnswer selfAssessedCorrectness].
  set (s1 := mkState k ua cs false (lit "a") sa).
  assert (hasAnswer q s1 = true) as A4 by (unfold hasAnswer; by rewrite Hmc).
  rewrite (step_check_eq s1 q); try done;
    [|unfold isAnswerChecked; cbn; by rewrite Hcs].
  rewrite Hmc. subst s1.
  cbn [currentQuestionIndex userAnswers checkedStates showResults
       tempShortAnswer selfAssessedCorrectness].
  set (s2 := resync questions _).
  assert (showResults s2 = false /\ currentQuestion questions s2 = Some q
          /\ isAnswerChecked s2 = true
          /\ get (selfAssessedCorrectness s2) (currentQuestionIndex s2) = null)
    as (B1 & B2 & B3 & B4).
  { subst s2. norm. split; [reflexivity|]. split; [exact Hq|]. split; [|done].
    unfold isAnswerChecked. cbn. by rewrite get_set_eq. }
  rewrite (step_assess_eq s2 q true B1 B2 Hmc B3 B4).
  set (s3 := mkState _ _ _ _ _ _).
  assert (showResults s3 = false /\ currentQuestion questions s3 = Some q
          /\ nextEnabled q s3 /\ currentQuestionIndex s3 = k)
    as (C1 & C2 & C3 & C4).
  { subst s3 s2. norm. split; [reflexivity|]. split; [exact Hq|].
    split; [|done]. split.
    - unfold isAnswerChecked. norm. by rewrite get_set_eq.
    - unfold isNextButtonDisabled. norm. rewrite get_set_eq. cbn.
      by rewrite andb_false_r. }
  destruct (leave_question s3 q C1 C2 C3) as [Hnext Hlast].
  rewrite C4 in Hnext, Hlast.
  split; intros Hb.
  - rewrite (Hnext Hb). clear Hnext Hlast B1 B2 B3 B4 C1 C2 C3 C4.
    subst s3 s2. unfold untouchedFrom. norm.
    split; [done|]. split; [done|].
    intros i Hi Hi'. rewrite !get_set_ne by lia. apply Hun; lia.
  - by apply Hlast.
Qed.

Lemma answer_rest rest :
  forall k s,
    untouchedFrom questions k s -> drop k questions = rest -> rest <> [] ->
    Forall (fun q => isMcOrOx q = true -> renderedOptions q <> []) rest ->
    showResults (fst (run questions s (walkthrough rest))) = true.
Proof.
  induction rest as [|q rest IH]; intros k s Hun Hdrop Hne Hwf; [done|].
  assert (questions !! k = Some q) as Hq.
  { pose proof (lookup_drop questions k 0) as E.
    rewrite Hdrop, Nat.add_0_r in E. done. }
  assert (drop (k + 1) questions = rest) as Hdrop'.
  { pose proof (drop_drop questions 1 k) as E. rewrite Hdrop in E. done. }
  assert (length questions = k + S (length rest)) as Hlen.
  { pose proof (lookup_lt_Some _ _ _ Hq).
    rewrite <- (take_drop k questions) at 1.
    rewrite length_app, length_take, Hdrop. cbn. lia. }
  apply Forall_cons in Hwf as [Hwq Hwf].
  unfold walkthrough. cbn [flat_map]. rewrite run_app. cbn [fst].
  assert ((k < length questions - 1 ->
           untouchedFrom questions (k + 1)
             (fst (run questions s (answerScript q))))
          /\ (~ k < length questions - 1 ->
              showResults (fst (run questions s (answerScript q))) = true))
    as [Hnext Hlast].
  { unfold answerScript. destruct (isMcOrOx q) eqn:Hmc.
    - destruct (renderedOptions q) as [|o os] eqn:Ho; [by destruct Hwq|].
      apply (answer_choice s k q o); try done. by rewrite Ho.
    - by apply (answer_text s k q). }
  destruct rest as [|q' rest'].
  - cbn [flat_map run fst]. apply Hlast. cbn in Hlen. lia.
  - apply (IH (k + 1)); try done. apply Hnext. cbn in Hlen. lia.
Qed.

Lemma untouched_start :
  untouchedFrom questions 0 (start questions).
Proof.
  destruct start_fields as (Hi & Hua & Hcs & Hs & Hsa).
  split; [done|]. split; [done|]. intros i _ Hi'.
  rewrite Hua, Hcs, Hsa. by rewrite !get_filled.
Qed.

Lemma renderedOptions_ox q :
  questionType q = ox -> renderedOptions q <> [].
Proof.
  intros Hty. unfold renderedOptions. rewrite bool_decide_eq_true_2 by done.
  by destruct (options q) as [[|o os]|].
Qed.


Lemma renderedOptions_some q :
  (questionType q = multiple_choice -> noOptions (options q) = false) ->
  isMcOrOx q = true -> renderedOptions q <> [].
Proof.
  intros Hwf Hmc. unfold isMcOrOx in Hmc.
  destruct (questionType q) eqn:Hty; [|done|by apply renderedOptions_ox].
  unfold renderedOptions. rewrite Hty. cbn.
  specialize (Hwf eq_refl). rewrite Hwf.
  by destruct (options q) as [[|o os]|].
Qed.

(** X9: a quiz whose multiple-choice questions all have at least one
    option can always be finished: answering each question in turn (first
    option, check, next; or a text, check, self-assessment, next) completes
    the session and delivers exactly one report. An ox question needs no
    options of its own: it falls back to O and X. *)
Theorem well_formed_quiz_can_be_completed :
  questions <> [] ->
  Forall (fun q => questionType q = multiple_choice ->
                   noOptions (options q) = false) questions ->
  completed (fst (run questions (start questions) (walkthrough questions)))
  /\ length (reports (snd (run questions (start questions)
                               (walkthrough questions)))) = 1.
Proof.
  intros Hne Hwf.
  assert (showResults (fst (run questions (start questions)
                                (walkthrough questions))) = true) as Hdone.
  { apply (answer_rest questions 0 _ untouched_start); [done|done|].
    eapply Forall_impl; [exact Hwf|]. intros q. apply renderedOptions_some. }
  split; [done|].
  rewrite run_reports by apply start_fields. by rewrite Hdone.
Qed.



(** *** The report of a completed session *)

Lemma step_submits_or_not s e :
  showResults s = false ->
  (showResults (fst (step questions s e)) = false
   /\ reports (snd (step questions s e)) = [])
  \/ (fst (step questions s e)
      = mkState (currentQuestionIndex s) (userAnswers s) (checkedStates s)
                true (tempShortAnswer s) (selfAssessedCorrectness s)
      /\ reports (snd (step questions s e))
         = [onSubmit (scorePercentage questions s) (correctCount questions s)
                     (length questions) (userAnswers s)
                     (val <$> calculatedCorrectness questions s)]).
Proof.
  intros Hshow. by_transition s e; auto.
  - left. split; [done|]. unfold handleCheckAnswer. by destruct (isMcOrOx q).
  - left. split; [done|]. unfold handlePrev. by case_decide.
  - left. split; [done|]. unfold handleNext. by rewrite decide_True.
  - right. split; [done|]. unfold handleNext. by rewrite decide_False.
Qed.

Lemma run_report s es :
  showResults s = false ->
  showResults (fst (run questions s es)) = true ->
  reports (snd (run questions s es))
  = [onSubmit (scorePercentage questions (fst (run questions s es)))
              (correctCount questions (fst (run questions s es)))
              (length questions)
              (userAnswers (fst (run questions s es)))
              (val <$> calculatedCorrectness questions (fst (run questions s es)))].
Proof.
  revert s. induction es as [|e es IH]; intros s Hshow Hdone.
  { cbn in Hdone. congruence. }
  cbn [run fst snd] in *. rewrite reports_app.
  destruct (step_submits_or_not s e Hshow) as [[H1 H2]|[H1 H2]].
  - rewrite H2. cbn [app]. by apply IH.
  - rewrite H2, H1, run_completed by done. done.
Qed.

(** X12: the report of a completed session is complete: it is the only
    report delivered, it carries the final [userAnswers], which hold an
    answer for every question, and it grades every question that is
    neither multiple-choice nor ox by the self-assessment the learner gave
    and every other question by [isAnswerMatch] on the recorded option. *)
Theorem completed_session_report es :
  completed (fst (run questions (start questions) es)) ->
  exists score correct correctness,
    reports (snd (run questions (start questions) es))
    = [onSubmit score correct (length questions)
                (userAnswers (fst (run questions (start questions) es)))
                correctness]
    /\ (forall i q,
          questions !! i = Some q ->
          answered q (get (userAnswers
                             (fst (run questions (start questions) es))) i))
    /\ (forall i q,
          questions !! i = Some q -> isMcOrOx q = false ->
          exists b,
            get (selfAssessedCorrectness
                   (fst (run questions (start questions) es))) i = val b
            /\ correctness !! i = Some (val b))
    /\ (forall i q,
          questions !! i = Some q -> isMcOrOx q = true ->
          correctness !! i
          = Some (val (isAnswerMatch
                         (get (userAnswers
                                 (fst (run questions (start questions) es))) i)
                         (answer q)))).
Proof.
  intros Hdone.
  pose proof (reachable_run (start questions) es (reachable_start _)) as Hr.
  set (s := fst (run questions (start questions) es)) in *.
  pose proof (reachable_shaped s Hr) as H.
  pose proof (reachable_invariant s Hr) as I.
  exists (scorePercentage questions s), (correctCount questions s),
    (val <$> calculatedCorrectness questions s).
  split. { apply run_report; [apply start_fields|done]. }
  assert (forall i, i < length questions -> get (checkedStates s) i = val true)
    as Hall.
  { intros i Hi. pose proof (inv_done _ _ I Hdone).
    destruct (decide (i = currentQuestionIndex s)) as [->|Hne].
    - by apply (sh_done _ _ H).
    - apply (sh_passed _ _ H). lia. }
  split; [|split].
  - intros i q Hq. apply (sh_answer _ _ H i q Hq).
    apply Hall. by eapply lookup_lt_Some.
  - intros i q Hq Hmc.
    destruct (inv_passed _ _ I i q Hq Hmc) as [b Hb].
    { pose proof (inv_done _ _ I Hdone). pose proof (lookup_lt_Some _ _ _ Hq).
      destruct (decide (i = currentQuestionIndex s)); [by right|left; lia]. }
    exists b. split; [done|].
    rewrite list_lookup_fmap, (calculatedCorrectness_lookup s i q Hq), Hmc, Hb.
    by destruct b.
  - intros i q Hq Hmc.
    by rewrite list_lookup_fmap, (calculatedCorrectness_lookup s i q Hq), Hmc.
Qed.

(** X13: a multiple-choice or ox question whose canonical answer matches
    none of its rendered options can never be scored correct: in every
    reachable state its entry in the correctness list is [false]. *)
Theorem unmatched_answer_is_never_correct s i q :
  questions !! i = Some q -> isMcOrOx q = true ->
  Forall (fun o => isAnswerMatch (val o) (answer q) = false) (renderedOptions q) ->
  reachable questions s ->
  calculatedCorrectness questions s !! i = Some false.
Proof.
  intros Hq Hmc Hnone Hr. pose proof (reachable_shaped s Hr) as H.
  rewrite (calculatedCorrectness_lookup s i q Hq), Hmc. f_equal.
  destruct (sh_choice _ _ H i q Hq Hmc) as [->|(a & -> & Ha)]; [done|].
  rewrite Hmc in Ha. rewrite Forall_forall in Hnone. by apply Hnone.
Qed.

(** *** Option styling *)

Lemma classes_distinct :
  NoDup [classesSelected; classesIdle; classesCorrect; classesIncorrect;
         classesDimmed].
Proof. apply (bool_decide_unpack _). by vm_compute. Qed.

(** X14: the feedback on the options agrees with the grade. On a checked
    multiple-choice or ox question of a reachable state the selected option
    is one of the rendered options; it is styled as correct exactly when
    the report counts the question as correct and as incorrect otherwise
    (two different class strings); any other option is styled as correct,
    and labelled so, exactly when it matches the canonical answer, and
    dimmed otherwise. Before the check no option is labelled and the
    styling only tells the selected option from the others. *)
Theorem option_feedback_agrees_with_grade s q :
  reachable questions s ->
  currentQuestion questions s = Some q -> isMcOrOx q = true ->
  (isAnswerChecked s = false ->
   forall o,
     showCorrectLabel q s o = false
     /\ getOptionClasses q s o
        = if bool_decide (userAnswer s = val o) then classesSelected
          else classesIdle)
  /\ (isAnswerChecked s = true ->
      exists (a : str) (c : bool),
        userAnswer s = val a /\ a ∈ renderedOptions q
        /\ calculatedCorrectness questions s !! currentQuestionIndex s = Some c
        /\ getOptionClasses q s a
           = (if c then classesCorrect else classesIncorrect)
        /\ classesCorrect <> classesIncorrect
        /\ forall o,
             showCorrectLabel q s o = isAnswerMatch (val o) (answer q)
             /\ (o <> a ->
                 getOptionClasses q s o
                 = if isAnswerMatch (val o) (answer q) then classesCorrect
                   else classesDimmed)).
Proof.
  intros Hr Hq Hmc. pose proof (reachable_shaped s Hr) as H. split; intros Hc.
  - intros o. unfold showCorrectLabel, getOptionClasses. by rewrite Hc.
  - destruct (sh_answer _ _ H _ q Hq (checked_true s Hc)) as (a & Ha & Hin).
    rewrite Hmc in Hin.
    exists a, (isAnswerMatch (val a) (answer q)).
    split; [done|]. split; [done|]. split.
    { unfold currentQuestion in Hq.
      by rewrite (calculatedCorrectness_lookup s _ q Hq), Hmc, Ha. }
    split.
    { unfold getOptionClasses, userAnswer. rewrite Hc, Ha. cbn [negb].
      rewrite bool_decide_eq_true_2 by done.
      by destruct (isAnswerMatch (val a) (answer q)). }
    split.
    { pose proof classes_distinct as Hd.
      apply NoDup_cons in Hd as [_ Hd]. apply NoDup_cons in Hd as [_ Hd].
      apply NoDup_cons in Hd as [Hd _]. intros Heq. apply Hd. rewrite Heq.
      by left. }
    intros o. split.
    { unfold showCorrectLabel. by rewrite Hc. }
    intros Hne. unfold getOptionClasses, userAnswer. rewrite Hc, Ha. cbn [negb].
    rewrite bool_decide_eq_false_2 by congruence. done.
Qed.

End QuizFacts.

(** ** The matcher: claims *)

(** C2 (as stated) fails on the empty candidate: it is present and equal
    to the empty canonical answer, so the matcher of the specification
    accepts it, while [isAnswerMatch] rejects it at its first test. *)
Lemma isAnswerMatch_empty_not_spec :
  isAnswerMatch (val (lit "")) (lit "") = false
  /\ matches_spec (val (lit "")) (lit "") = true
  /\ (exists c, val (lit "") = val c
                /\ (c = lit "" \/ normalize c = normalize (lit ""))).
Proof. split; [done|]. split; [done|]. exists []. by split; [|left]. Qed.

(** C2 (amended): [isAnswerMatch] returns true if and only if the candidate
    is present, is not the empty string, and either equals the canonical
    answer exactly or the two are equal after trimming white space and then
    stripping one trailing '.' or ','; an absent candidate yields false; the
    four examples of the specification hold. *)
Theorem isAnswerMatch_characterization :
  (forall (candidate : nullable str) (canonicalAnswer : str),
      isAnswerMatch candidate canonicalAnswer = true <->
      exists c, candidate = val c /\ c <> []
                /\ (c = canonicalAnswer
                    \/ normalize c = normalize canonicalAnswer))
  /\ (forall canonicalAnswer, isAnswerMatch null canonicalAnswer = false)
  /\ isAnswerMatch (val (lit "Paris.")) (lit "Paris") = true
  /\ isAnswerMatch (val (lit " Paris ")) (lit "Paris") = true
  /\ isAnswerMatch (val (lit "paris")) (lit "Paris") = false
  /\ isAnswerMatch null (lit "Paris") = false.
Proof.
  split; [|done].
  intros candidate canonicalAnswer. split.
  - destruct candidate as [| |c]; [done|done|].
    destruct (decide (c = [])) as [->|Hc]; [done|].
    intros H. exists c. split; [done|]. split; [done|].
    by apply isAnswerMatch_nonempty.
  - intros (c & -> & Hc & H). by apply isAnswerMatch_nonempty.
Qed.

(** C9: the empty-string candidate never matches, exactly like an absent
    one, not even the empty canonical answer; a candidate of white space
    only passes the first test and matches whatever normalizes to the
    empty string. *)
Theorem isAnswerMatch_empty_candidate :
  (forall a : str, isAnswerMatch (val (lit "")) a = false
                   /\ isAnswerMatch (val (lit "")) a = isAnswerMatch null a)
  /\ isAnswerMatch (val (lit "")) (lit "") = false
  /\ lit "" = lit ""
  /\ isAnswerMatch (val (lit " ")) (lit "") = true
  /\ isAnswerMatch (val (lit " ")) (lit ".") = true
  /\ (forall a : str, isAnswerMatch (val (lit " ")) a
                      = bool_decide (a = lit " ")
                        || bool_decide (normalize a = [])).
Proof.
  repeat split; try done.
  intros a. unfold isAnswerMatch.
  rewrite bool_decide_eq_false_2 by done.
  change (normalize (lit " ")) with (@nil N).
  repeat case_bool_decide; try done; congruence.
Qed.

(** ** The session: claims *)

(** C3: in a reachable state whose current question is the last one, is a
    short-answer question, is checked and has no self-assessment, a click on
    the next button changes nothing and delivers no report, and the session
    is not completed; and in every completed reachable state each checked
    short-answer question carries a self-assessment. *)
Theorem completion_gating (questions : list QuizQuestion) (s : State) :
  reachable questions s ->
  (forall q,
      currentQuestion questions s = Some q ->
      currentQuestionIndex s = length questions - 1 ->
      questionType q = short_answer ->
      get (checkedStates s) (currentQuestionIndex s) = val true ->
      get (selfAssessedCorrectness s) (currentQuestionIndex s) = null ->
      step questions s ClickNext = (s, [])
      /\ reports (snd (step questions s ClickNext)) = []
      /\ ~ completed (fst (step questions s ClickNext)))
  /\ (completed s ->
      forall i q,
        questions !! i = Some q -> questionType q = short_answer ->
        get (checkedStates s) i = val true ->
        exists b, get (selfAssessedCorrectness s) i = val b).
Proof.
  intros Hr. pose proof (reachable_invariant _ _ Hr) as I. split.
  - intros q Hq Hlast Hty Hc Hsa.
    assert (isMcOrOx q = false) as Hmc by (unfold isMcOrOx; by rewrite Hty).
    assert (step questions s ClickNext = (s, [])) as Hstep.
    { apply (step_next_blocked _ _ q); [done|].
      unfold isNextButtonDisabled, isAnswerChecked. by rewrite Hc, Hmc, Hsa. }
    rewrite Hstep. cbn [fst snd]. split; [done|]. split; [done|].
    unfold completed. intros Hdone.
    destruct (inv_passed _ _ I (currentQuestionIndex s) q Hq Hmc) as [b Hb];
      [by right|congruence].
  - intros Hdone i q Hq Hty _.
    assert (isMcOrOx q = false) as Hmc by (unfold isMcOrOx; by rewrite Hty).
    apply (inv_passed _ _ I i q Hq Hmc).
    pose proof (inv_done _ _ I Hdone). pose proof (lookup_lt_Some _ _ _ Hq).
    destruct (decide (i = currentQuestionIndex s)); [by right|left; lia].
Qed.

Lemma completion_gating_witness :
  step Example3.qs (Example3.after Example3.before_assessment) ClickNext
  = (Example3.after Example3.before_assessment, [])
  /\ reports (snd (step Example3.qs
                        (Example3.after Example3.before_assessment) ClickNext)) = []
  /\ ~ completed (fst (step Example3.qs
                            (Example3.after Example3.before_assessment) ClickNext)).
Proof.
  apply (proj1 (completion_gating Example3.qs
                  (Example3.after Example3.before_assessment)
                  (reachable_run _ _ _ (reachable_start _))) Example3.q2);
    reflexivity.
Defined.

(** C4: on an unchecked current question of a reachable state, a click on
    the check button while no answer is present (no selected option for a
    multiple-choice or ox question, a draft that trims to the empty string
    otherwise) changes nothing: the question stays unchecked and
    [userAnswers] is untouched. *)
Theorem check_without_answer (questions : list QuizQuestion) (s : State)
    (q : QuizQuestion) :
  reachable questions s ->
  currentQuestion questions s = Some q ->
  isAnswerChecked s = false ->
  (if isMcOrOx q then forall a, userAnswer s <> val a
   else trim (tempShortAnswer s) = []) ->
  step questions s ClickCheckAnswer = (s, [])
  /\ isAnswerChecked (fst (step questions s ClickCheckAnswer)) = false
  /\ userAnswers (fst (step questions s ClickCheckAnswer)) = userAnswers s.
Proof.
  intros Hr Hq Hc Hno. pose proof (reachable_invariant _ _ Hr) as I.
  assert (step questions s ClickCheckAnswer = (s, [])) as Hstep.
  { apply step_idle. unfold dispatch. rewrite Hq, Hc.
    destruct (showResults s); [done|].
    unfold Button, control, isCheckAnswerDisabled, hasAnswer.
    destruct (isMcOrOx q).
    - pose proof (inv_answers _ _ I _ (lookup_lt_Some _ _ _ Hq)) as Hd.
      unfold userAnswer in *.
      destruct (get (userAnswers s) (currentQuestionIndex s)) as [| |a];
        [done|done|by destruct (Hno a)].
    - by rewrite Hno. }
  by rewrite Hstep.
Qed.

Lemma check_without_answer_witness :
  step Example3.qs (Example3.after [ClickOption 1; ClickCheckAnswer; ClickNext])
       ClickCheckAnswer
  = (Example3.after [ClickOption 1; ClickCheckAnswer; ClickNext], [])
  /\ isAnswerChecked
       (fst (step Example3.qs
                  (Example3.after [ClickOption 1; ClickCheckAnswer; ClickNext])
                  ClickCheckAnswer)) = false
  /\ userAnswers
       (fst (step Example3.qs
                  (Example3.after [ClickOption 1; ClickCheckAnswer; ClickNext])
                  ClickCheckAnswer))
     = userAnswers (Example3.after [ClickOption 1; ClickCheckAnswer; ClickNext]).
Proof.
  apply (check_without_answer Example3.qs _ Example3.q1).
  - apply reachable_run, reachable_start.
  - reflexivity.
  - reflexivity.
  - intros a. vm_compute. discriminate.
Defined.

(** C5: once question [i] is checked, no event changes [userAnswers[i]],
    neither in one step nor over the rest of the session; on the checked
    current question [handleAnswerSelect] and [handleShortAnswerChange]
    call no setter, and selecting an option or typing a draft is a no-op. *)
Theorem checked_answer_frozen (questions : list QuizQuestion) (s : State)
    (i : nat) :
  get (checkedStates s) i = val true ->
  (forall e, get (userAnswers (fst (step questions s e))) i
             = get (userAnswers s) i)
  /\ (forall es, get (userAnswers (fst (run questions s es))) i
                 = get (userAnswers s) i)
  /\ (currentQuestionIndex s = i ->
      forall k o value,
        handleAnswerSelect s o = []
        /\ handleShortAnswerChange s value = []
        /\ step questions s (ClickOption k) = (s, [])
        /\ step questions s (ChangeShortAnswer value) = (s, [])).
Proof.
  intros Hi. split; [|split].
  - intros e. by apply step_answer_frozen.
  - intros es. by apply run_answer_frozen.
  - intros Hcur k o value.
    assert (isAnswerChecked s = true) as Hc
      by (unfold isAnswerChecked; by rewrite Hcur, Hi).
    unfold handleAnswerSelect, handleShortAnswerChange. rewrite Hc.
    split; [done|]. split; [done|].
    split; apply step_idle; unfold dispatch;
      destruct (showResults s); try done;
      destruct (currentQuestion questions s) as [q|]; try done;
      destruct (isMcOrOx q); try done; rewrite Hc.
    + by destruct (renderedOptions q !! k).
    + done.
Qed.

Lemma checked_answer_frozen_witness :
  get (userAnswers
         (fst (step Example3.qs (Example3.after Example3.before_assessment)
                    (ChangeShortAnswer (lit "Busan"))))) 2
  = val (lit "seoul").
Proof.
  apply (proj1 (checked_answer_frozen Example3.qs
                  (Example3.after Example3.before_assessment) 2 eq_refl)).
Defined.

(** C6: once [checkedStates[i]] is true it stays true: after any event,
    after any sequence of events, and after the setter calls of any of the
    six handlers. *)
Theorem checked_is_permanent (questions : list QuizQuestion) (s : State)
    (i : nat) :
  get (checkedStates s) i = val true ->
  (forall e, get (checkedStates (fst (step questions s e))) i = val true)
  /\ (forall es, get (checkedStates (fst (run questions s es))) i = val true)
  /\ (forall q o value isCorrect,
        Forall (fun calls => get (checkedStates (commit s calls)) i = val true)
               [handleAnswerSelect s o;
                handleShortAnswerChange s value;
                handleCheckAnswer q s;
                handleSelfAssessment s isCorrect;
                handlePrev s;
                handleNext questions s]).
Proof.
  intros Hi. split; [|split].
  - intros e. by apply step_checked_mono.
  - intros es. by apply run_checked_mono.
  - intros q o value isCorrect.
    repeat apply Forall_cons_2; try apply Forall_nil_2.
    + unfold handleAnswerSelect. by destruct (isAnswerChecked s).
    + unfold handleShortAnswerChange. by destruct (isAnswerChecked s).
    + unfold handleCheckAnswer. destruct (isMcOrOx q); cbn;
        (destruct (decide (currentQuestionIndex s = i)) as [->|Hne];
         [apply get_set_eq | by rewrite get_set_ne]).
    + done.
    + unfold handlePrev. by case_decide.
    + unfold handleNext. by case_decide.
Qed.

Lemma checked_is_permanent_witness :
  get (checkedStates
         (fst (run Example3.qs (Example3.after [ClickOption 1; ClickCheckAnswer])
                   [ClickOption 0; ClickNext; ClickPrev; ClickCheckAnswer]))) 0
  = val true.
Proof.
  apply (proj1 (proj2 (checked_is_permanent Example3.qs
                         (Example3.after [ClickOption 1; ClickCheckAnswer])
                         0 eq_refl))).
Defined.

(** C7: in every reachable state of a session over a non-empty question
    list the index is below the question count; an event changes it by at
    most one, upwards only on the next button and downwards only on the
    previous button; the previous button is a no-op at index 0 and
    decrements the index above 0; the next button increments it below the
    last index; at the last index, with its preconditions satisfied, the
    next button completes the session and delivers one report, after which
    no event does anything, so a session delivers exactly one report if it
    completes and none otherwise; [handlePrev] above index 0 and
    [handleNext] below the last index move the index by one. *)
Theorem navigation_bounds :
  (forall questions s,
      questions <> [] -> reachable questions s ->
      currentQuestionIndex s < length questions)
  /\ (forall questions s e,
        currentQuestionIndex (fst (step questions s e)) = currentQuestionIndex s
        \/ (e = ClickNext
            /\ currentQuestionIndex (fst (step questions s e))
               = currentQuestionIndex s + 1)
        \/ (e = ClickPrev
            /\ currentQuestionIndex (fst (step questions s e)) + 1
               = currentQuestionIndex s))
  /\ (forall questions s,
        currentQuestionIndex s = 0 ->
        handlePrev s = [] /\ step questions s ClickPrev = (s, []))
  /\ (forall questions s q,
        showResults s = false -> currentQuestion questions s = Some q ->
        0 < currentQuestionIndex s ->
        currentQuestionIndex (fst (step questions s ClickPrev))
        = currentQuestionIndex s - 1)
  /\ (forall questions s q,
        showResults s = false -> currentQuestion questions s = Some q ->
        nextEnabled q s ->
        currentQuestionIndex s < length questions - 1 ->
        currentQuestionIndex (fst (step questions s ClickNext))
        = currentQuestionIndex s + 1
        /\ ~ completed (fst (step questions s ClickNext))
        /\ reports (snd (step questions s ClickNext)) = [])
  /\ (forall questions s q,
        showResults s = false -> currentQuestion questions s = Some q ->
        nextEnabled q s ->
        currentQuestionIndex s = length questions - 1 ->
        completed (fst (step questions s ClickNext))
        /\ currentQuestionIndex (fst (step questions s ClickNext))
           = currentQuestionIndex s
        /\ length (reports (snd (step questions s ClickNext))) = 1)
  /\ (forall questions s es,
        completed s -> run questions s es = (s, []))
  /\ (forall questions es,
        length (reports (snd (run questions (start questions) es)))
        = if showResults (fst (run questions (start questions) es))
          then 1 else 0)
  /\ (forall questions s,
        (0 < currentQuestionIndex s ->
         currentQuestionIndex (commit s (handlePrev s))
         = currentQuestionIndex s - 1)
        /\ (currentQuestionIndex s < length questions - 1 ->
            currentQuestionIndex (commit s (handleNext questions s))
            = currentQuestionIndex s + 1)).
Proof.
  split; [|split; [|split; [|split; [|split; [|split; [|split; [|split]]]]]]].
  - intros questions s Hne Hr.
    by apply (inv_index questions s (reachable_invariant _ _ Hr)).
  - intros questions s e. apply (step_index questions s e).
  - intros questions s H0. split.
    + unfold handlePrev. rewrite decide_False; [done|lia].
    + by apply step_prev_first.
  - intros questions s q Hshow Hq Hpos. by apply (step_prev questions s q).
  - intros questions s q Hshow Hq Hn Hlt.
    destruct (step_next questions s q Hshow Hq Hn Hlt) as (Hi & Hs & Hr).
    split; [done|]. split; [|done]. unfold completed. by rewrite Hs.
  - intros questions s q Hshow Hq Hn Hlast.
    rewrite (step_submit questions s q) by (done || lia). done.
  - intros questions s es H. by apply run_completed.
  - intros questions es. apply run_reports. apply start_fields.
  - intros questions s. split; intros H.
    + unfold handlePrev. by rewrite decide_True.
    + unfold handleNext. by rewrite decide_True.
Qed.

Lemma navigation_bounds_witness :
  completed (fst (step Example3.qs (Example3.after Example3.before_last) ClickNext))
  /\ currentQuestionIndex
       (fst (step Example3.qs (Example3.after Example3.before_last) ClickNext))
     = currentQuestionIndex (Example3.after Example3.before_last)
  /\ length (reports (snd (step Example3.qs
                                (Example3.after Example3.before_last) ClickNext)))
     = 1.
Proof.
  apply (proj1 (proj2 (proj2 (proj2 (proj2 (proj2 navigation_bounds)))))
           Example3.qs (Example3.after Example3.before_last) Example3.q2);
    try reflexivity.
  split; reflexivity.
Defined.

(** C8: in every reachable state the self-assessment slot of each
    multiple-choice or ox question is null, and on such a question a
    self-assessment event reaches no handler. *)
Theorem auto_graded_never_assessed (questions : list QuizQuestion) (s : State) :
  reachable questions s ->
  (forall i q,
      questions !! i = Some q -> isMcOrOx q = true ->
      get (selfAssessedCorrectness s) i = null)
  /\ (forall q isCorrect,
        currentQuestion questions s = Some q -> isMcOrOx q = true ->
        step questions s (ClickSelfAssessment isCorrect) = (s, [])).
Proof.
  intros Hr. split.
  - intros i q. apply (inv_auto _ _ (reachable_invariant _ _ Hr)).
  - intros q isCorrect Hq Hmc. apply step_idle. unfold dispatch.
    rewrite Hq, Hmc. by destruct (showResults s).
Qed.

Lemma auto_graded_never_assessed_witness :
  get (selfAssessedCorrectness (Example3.after Example3.session)) 0 = null
  /\ get (selfAssessedCorrectness (Example3.after Example3.session)) 1 = null.
Proof.
  split.
  - apply (proj1 (auto_graded_never_assessed Example3.qs
                    (Example3.after Example3.session)
                    (reachable_run _ _ _ (reachable_start _)))
             0 Example3.q0); reflexivity.
  - apply (proj1 (auto_graded_never_assessed Example3.qs
                    (Example3.after Example3.session)
                    (reachable_run _ _ _ (reachable_start _)))
             1 Example3.q1); reflexivity.
Defined.

(** ** The report: claims *)

Lemma handleNext_last (questions : list QuizQuestion) (s : State) :
  ~ currentQuestionIndex s < length questions - 1 ->
  handleNext questions s
  = [setShowResults true;
     onSubmit (scorePercentage questions s) (correctCount questions s)
              (length questions) (userAnswers s)
              (val <$> calculatedCorrectness questions s)].
Proof. intros H. unfold handleNext. by rewrite decide_False. Qed.

Lemma report_lookup (questions : list QuizQuestion) (s : State) i q :
  questions !! i = Some q ->
  (val <$> calculatedCorrectness questions s) !! i
  = Some (val (if isMcOrOx q
               then isAnswerMatch (get (userAnswers s) i) (answer q)
               else is_true (get (selfAssessedCorrectness s) i))).
Proof.
  intros Hq. by rewrite list_lookup_fmap, (calculatedCorrectness_lookup _ _ _ q).
Qed.

(** C1: the next button at the last index of a session delivers exactly the
    report computed by [handleNext]: one entry per question, the entry of a
    multiple-choice or ox question being [isAnswerMatch] of its answer slot
    and canonical answer, that of any other question being whether its
    self-assessment is [true]; the count of correct answers is the number
    of true entries; the score is that count divided by the question count,
    times 100, in double precision. In the three-question session (B
    selected for answer B, X selected for answer O, a short answer assessed
    correct) the report has 2 correct answers out of 3, entries
    [true, false, true], and the double 0x1.0aaaaaaaaaaaap+6, which is
    2/3 * 100 as doubles compute it: within 10^-13 of 200/3 and 66.67 when
    rounded to two decimals. *)
Theorem scoring_report :
  (forall (questions : list QuizQuestion) (s : State) (q : QuizQuestion),
      showResults s = false ->
      currentQuestion questions s = Some q ->
      nextEnabled q s ->
      currentQuestionIndex s = length questions - 1 ->
      exists score correct correctness,
        snd (step questions s ClickNext) = handleNext questions s
        /\ reports (handleNext questions s)
           = [onSubmit score correct (length questions) (userAnswers s)
                       correctness]
        /\ length correctness = length questions
        /\ (forall i qi,
              questions !! i = Some qi ->
              correctness !! i
              = Some (val (if isMcOrOx qi
                           then isAnswerMatch (get (userAnswers s) i) (answer qi)
                           else is_true (get (selfAssessedCorrectness s) i))))
        /\ correct = length (filter (fun c => c = val true) correctness)
        /\ score = PrimFloat.mul
                     (PrimFloat.div (number correct) (number (length questions)))
                     100%float)
  /\ reports (snd (run Example3.qs (start Example3.qs) Example3.session))
     = [onSubmit 0x1.0aaaaaaaaaaaap+6%float 2 3
                 [val (lit "B"); val (lit "X"); val (lit "seoul")]
                 [val true; val false; val true]]
  /\ completed (fst (run Example3.qs (start Example3.qs) Example3.session))
  /\ to_Q 0x1.0aaaaaaaaaaaap+6%float = Some (4691249611844266 # 70368744177664)%Q
  /\ (Qabs ((4691249611844266 # 70368744177664) - (200 # 3))
      < 1 # 10000000000000)%Q
  /\ ((66665 # 1000) <= (4691249611844266 # 70368744177664)
      < (66675 # 1000))%Q.
Proof.
  split.
  - intros questions s q Hshow Hq Hn Hlast.
    assert (~ currentQuestionIndex s < length questions - 1) as Hnot by lia.
    exists (scorePercentage questions s), (correctCount questions s),
      (val <$> calculatedCorrectness questions s).
    split.
    { rewrite (step_submit questions s q) by done. cbn [snd].
      by rewrite handleNext_last. }
    rewrite handleNext_last by done. split; [done|].
    split. { by rewrite length_fmap, length_calculatedCorrectness. }
    split. { intros i qi. apply report_lookup. }
    split. { apply count_true_val. }
    unfold scorePercentage, correctCount. by rewrite count_true_val.
  - split; [by vm_compute|]. split; [by vm_compute|].
    split; [by vm_compute|]. split; [by vm_compute|].
    split; by vm_compute.
Qed.

Lemma scoring_report_witness :
  exists score correct correctness,
    snd (step Example3.qs (Example3.after Example3.before_last) ClickNext)
    = handleNext Example3.qs (Example3.after Example3.before_last)
    /\ reports (handleNext Example3.qs (Example3.after Example3.before_last))
       = [onSubmit score correct 3
                   (userAnswers (Example3.after Example3.before_last))
                   correctness]
    /\ length correctness = 3
    /\ (forall i qi,
          Example3.qs !! i = Some qi ->
          correctness !! i
          = Some (val (if isMcOrOx qi
                       then isAnswerMatch
                              (get (userAnswers
                                      (Example3.after Example3.before_last)) i)
                              (answer qi)
                       else is_true
                              (get (selfAssessedCorrectness
                                      (Example3.after Example3.before_last)) i))))
    /\ correct = length (filter (fun c => c = val true) correctness)
    /\ score = PrimFloat.mul (PrimFloat.div (number correct) (number 3))
                             100%float.
Proof.
  apply (proj1 scoring_report Example3.qs
           (Example3.after Example3.before_last) Example3.q2);
    try reflexivity.
  split; reflexivity.
Defined.

(** C10: every entry of the correctness list that [handleNext] passes to
    [onSubmit] is a boolean, one per question; a question that is neither
    multiple-choice nor ox and whose self-assessment is null (or anything
    but [true]) is entered as [false]; the count of correct answers is at
    most the question count, which is positive, and the score is not NaN
    (for fewer than 2^53 questions, where a count is an exact double; a
    JavaScript array holds fewer than 2^32 elements). *)
Theorem report_entries_are_booleans (questions : list QuizQuestion) (s : State) :
  questions <> [] ->
  ~ currentQuestionIndex s < length questions - 1 ->
  exists score correct correctness,
    reports (handleNext questions s)
    = [onSubmit score correct (length questions) (userAnswers s) correctness]
    /\ length correctness = length questions
    /\ Forall (fun c => exists b : bool, c = val b) correctness
    /\ (forall i q,
          questions !! i = Some q -> isMcOrOx q = false ->
          get (selfAssessedCorrectness s) i <> val true ->
          correctness !! i = Some (val false))
    /\ correct = length (filter (fun c => c = val true) correctness)
    /\ correct <= length questions
    /\ 0 < length questions
    /\ score = PrimFloat.mul
                 (PrimFloat.div (number correct) (number (length questions)))
                 100%float
    /\ ((Z.of_nat (length questions) < 2 ^ 53)%Z -> Prim2SF score <> S754_nan).
Proof.
  intros Hne Hlast.
  assert (0 < length questions) as Hpos by (destruct questions; [done|cbn; lia]).
  exists (scorePercentage questions s), (correctCount questions s),
    (val <$> calculatedCorrectness questions s).
  rewrite handleNext_last by done. split; [done|].
  split. { by rewrite length_fmap, length_calculatedCorrectness. }
  split. { apply Forall_fmap, Forall_true. intros b. by exists b. }
  split.
  { intros i q Hq Hmc Hsa. rewrite (report_lookup _ _ _ q) by done.
    rewrite Hmc.
    by destruct (get (selfAssessedCorrectness s) i) as [| |[]]. }
  split. { apply count_true_val. }
  split. { apply correctCount_le. }
  split. { done. }
  split. { unfold scorePercentage, correctCount. by rewrite count_true_val. }
  intros Hb. apply ratio_times_100_not_nan; [done|done|].
  pose proof (correctCount_le questions s). unfold prec. lia.
Qed.

Lemma report_entries_are_booleans_witness :
  exists score correct correctness,
    reports (handleNext Example3.qs (Example3.after Example3.before_assessment))
    = [onSubmit score correct 3
                (userAnswers (Example3.after Example3.before_assessment))
                correctness]
    /\ length correctness = 3
    /\ Forall (fun c => exists b : bool, c = val b) correctness
    /\ (forall i q,
          Example3.qs !! i = Some q -> isMcOrOx q = false ->
          get (selfAssessedCorrectness
                 (Example3.after Example3.before_assessment)) i <> val true ->
          correctness !! i = Some (val false))
    /\ correct = length (filter (fun c => c = val true) correctness)
    /\ correct <= 3
    /\ 0 < 3
    /\ score = PrimFloat.mul (PrimFloat.div (number correct) (number 3))
                             100%float
    /\ ((3 < 2 ^ 53)%Z -> Prim2SF score <> S754_nan).
Proof.
  apply (report_entries_are_booleans Example3.qs
           (Example3.after Example3.before_assessment)).
  - discriminate.
  - vm_compute. lia.
Defined.

(** ** The matcher: further properties *)

Lemma isAnswerMatch_normal (o a : str) :
  o <> [] -> isAnswerMatch (val o) a = bool_decide (normalize o = normalize a).
Proof.
  intros Ho. unfold isAnswerMatch. rewrite bool_decide_eq_false_2 by done.
  case_bool_decide as Heq; [|done]. subst a. by rewrite bool_decide_eq_true_2.
Qed.

(** X15: on non-empty strings [isAnswerMatch] compares normalized forms and
    nothing else (the test for exact equality never changes the result), so
    it is reflexive, symmetric and transitive: the options accepted for an
    answer are exactly those with the answer's normalized form. *)
Theorem isAnswerMatch_is_an_equivalence (o a b : str) :
  o <> [] -> a <> [] -> b <> [] ->
  isAnswerMatch (val o) a = bool_decide (normalize o = normalize a)
  /\ isAnswerMatch (val o) o = true
  /\ isAnswerMatch (val o) a = isAnswerMatch (val a) o
  /\ (isAnswerMatch (val o) a = true -> isAnswerMatch (val a) b = true ->
      isAnswerMatch (val o) b = true).
Proof.
  intros Ho Ha Hb. rewrite !isAnswerMatch_normal by done.
  split; [done|]. split; [by apply bool_decide_eq_true_2|]. split.
  - repeat case_bool_decide; congruence.
  - rewrite !bool_decide_eq_true. congruence.
Qed.

Lemma trimStart_nil (s : str) :
  trimStart s = [] <-> Forall (fun c => isWhiteSpace c = true) s.
Proof.
  induction s as [|c s IH]; cbn [trimStart]; [by split|].
  destruct (isWhiteSpace c) eqn:Hc.
  - split.
    + intros H. constructor; [done|]. by apply IH.
    + intros [_ H]%Forall_cons. by apply IH.
  - split; [done|]. intros [? _]%Forall_cons. congruence.
Qed.

Lemma trimStart_head (s : str) c r :
  trimStart s = c :: r -> isWhiteSpace c = false.
Proof.
  induction s as [|d s IH]; cbn [trimStart]; [done|].
  destruct (isWhiteSpace d) eqn:Hd; [done|]. by intros [= <- _].
Qed.

Lemma trim_nil (s : str) :
  trim s = [] <-> Forall (fun c => isWhiteSpace c = true) s.
Proof.
  unfold trim, trimEnd. split.
  - intros H. apply trimStart_nil.
    apply (f_equal (@rev N)) in H. rewrite rev_involutive in H.
    cbn in H. apply trimStart_nil in H.
    destruct (trimStart s) as [|c r] eqn:Hs; [done|].
    pose proof (trimStart_head s c r Hs) as Hc.
    apply Forall_rev in H. rewrite rev_involutive in H.
    apply Forall_cons in H as [? _]. congruence.
  - intros H. apply trimStart_nil in H. by rewrite H.
Qed.

(** X16: on a question that is neither multiple-choice nor ox the check
    button is disabled exactly when the draft is empty or consists of white
    space only. *)
Theorem check_is_disabled_for_blank_drafts (q : QuizQuestion) (s : State) :
  isMcOrOx q = false ->
  isCheckAnswerDisabled q s = true
  <-> Forall (fun c => isWhiteSpace c = true) (tempShortAnswer s).
Proof.
  intros Hmc. unfold isCheckAnswerDisabled, hasAnswer. rewrite Hmc.
  rewrite negb_involutive, bool_decide_eq_true. apply trim_nil.
Qed.

(** ** The option buttons of the two copies of the component *)

(** X17: the two copies of the component render the same option buttons,
    except for an ox question whose options array is empty: there the older
    copy renders none, leaving the question unanswerable, and Quiz.tsx
    falls back to O and X. *)
Theorem option_buttons_of_both_copies (q : QuizQuestion) :
  (questionType q = ox /\ options q = Some [] ->
   renderedOptions_part_000 q = [] /\ renderedOptions q = [lit "O"; lit "X"])
  /\ (~ (questionType q = ox /\ options q = Some []) ->
      renderedOptions_part_000 q = renderedOptions q).
Proof.
  unfold renderedOptions_part_000, renderedOptions. split.
  - intros [Hty Ho]. rewrite Ho, bool_decide_eq_true_2 by done. done.
  - intros Hn. destruct (options q) as [[|o os]|] eqn:Ho; cbn.
    + rewrite bool_decide_eq_false_2; [done|]. intros Hty. by apply Hn.
    + by rewrite andb_false_r.
    + by case_bool_decide.
Qed.

(** ** The speech service: what a caller can observe *)

Module GeminiFacts.
Import Gemini.

Lemma startsWith_spec (s sub : str) :
  startsWith s sub = true <-> exists post, s = sub ++ post.
Proof.
  revert s. induction sub as [|c sub IH]; intros s; cbn [startsWith].
  - split; [by exists s|done].
  - destruct s as [|d s]; [split; [done|by intros [? ?]]|].
    rewrite andb_true_iff, N.eqb_eq, IH. split.
    + intros [-> [post ->]]. by exists post.
    + intros [post [= -> ->]]. split; [done|by exists post].
Qed.

Lemma includes_spec (s sub : str) :
  includes s sub = true <-> exists pre post, s = pre ++ sub ++ post.
Proof.
  induction s as [|d s IH]; cbn [includes].
  - rewrite orb_false_r, startsWith_spec. split.
    + intros [post H]. by exists [], post.
    + intros ([|? ?] & post & H); [by exists post|done].
  - rewrite orb_true_iff, startsWith_spec, IH. split.
    + intros [[post H]|(pre & post & H)].
      * by exists [], post.
      * exists (d :: pre), post. by rewrite H.
    + intros ([|e pre] & post & H).
      * left. by exists post.
      * right. injection H as -> ->. by exists pre, post.
Qed.

(** X18: [generateSpeech] returns the audio data exactly when the client is
    initialized and the SDK call returns a non-empty string, which it
    passes on unchanged. Whatever goes wrong, the caller sees one of the
    three messages of [handleApiError]: the error of [getAi] for a missing
    client and the function's own error for missing audio are thrown inside
    the [try] block, so they are replaced and never reach the caller. *)
Theorem generateSpeech_outcomes (ai : option Client) (fileProtocol : bool)
    (generateContent : Client -> str -> TTSVoice -> Result (nullable str))
    (textToSpeak : str) (voice : TTSVoice) :
  (forall b,
      generateSpeech ai fileProtocol generateContent textToSpeak voice
      = Returned b
      <-> b <> []
          /\ exists c, ai = Some c
                       /\ generateContent c textToSpeak voice = Returned (val b))
  /\ (forall e,
        generateSpeech ai fileProtocol generateContent textToSpeak voice
        = Threw e ->
        e ∈ [ErrorObject invalidKeyMessage; ErrorObject fileProtocolMessage;
             ErrorObject communicationMessage]
        /\ e <> ErrorObject notInitializedMessage
        /\ e <> ErrorObject noAudioMessage)
  /\ (ai = None ->
      generateSpeech ai fileProtocol generateContent textToSpeak voice
      = Threw (ErrorObject (if fileProtocol then fileProtocolMessage
                            else communicationMessage)))
  /\ (forall c x,
        ai = Some c -> generateContent c textToSpeak voice = Returned x ->
        x = undefined \/ x = null \/ x = val [] ->
        generateSpeech ai fileProtocol generateContent textToSpeak voice
        = Threw (ErrorObject (if fileProtocol then fileProtocolMessage
                              else communicationMessage))).
Proof.
  assert (forall e,
             handleApiError fileProtocol e
             ∈ [ErrorObject invalidKeyMessage; ErrorObject fileProtocolMessage;
                ErrorObject communicationMessage]
             /\ handleApiError fileProtocol e <> ErrorObject notInitializedMessage
             /\ handleApiError fileProtocol e <> ErrorObject noAudioMessage)
    as Hmask.
  { intros e. unfold handleApiError.
    destruct (isKeyError e); [|destruct fileProtocol];
      (split; [rewrite !elem_of_cons; auto|]);
      split; apply (bool_decide_unpack _); by vm_compute. }
  assert (isKeyError (ErrorObject notInitializedMessage) = false) as Hk1
    by (by vm_compute).
  assert (isKeyError (ErrorObject noAudioMessage) = false) as Hk2
    by (by vm_compute).
  unfold generateSpeech, getAi. split; [|split; [|split]].
  - intros b. destruct ai as [c|].
    + destruct (generateContent c textToSpeak voice) as [x|e] eqn:Hg.
      * assert (forall c', Some c = Some c' ->
                  generateContent c' textToSpeak voice = Returned (val b) ->
                  x = val b) as Hx.
        { intros c' [= <-] Hg'. rewrite Hg in Hg'. by injection Hg'. }
        destruct x as [| |[|d r]].
        -- split; [done|]. intros (_ & c' & Hc & Hg'). by specialize (Hx c' Hc Hg').
        -- split; [done|]. intros (_ & c' & Hc & Hg'). by specialize (Hx c' Hc Hg').
        -- split; [done|]. intros (Hb & c' & Hc & Hg').
           specialize (Hx c' Hc Hg'). congruence.
        -- split.
           ++ intros [= <-]. split; [done|]. by exists c.
           ++ intros (_ & c' & Hc & Hg'). specialize (Hx c' Hc Hg').
              by injection Hx as <-.
      * split; [done|]. intros (_ & c' & [= <-] & Hg'). congruence.
    + split; [done|]. by intros (_ & c & [=] & _).
  - intros e. destruct ai as [c|].
    + destruct (generateContent c textToSpeak voice) as [[| |[|d r]]|e'];
        intros [= <-] || intros [=]; apply Hmask.
    + intros [= <-]. apply Hmask.
  - intros ->. unfold handleApiError. rewrite Hk1. by destruct fileProtocol.
  - intros c x -> -> Hx.
    destruct Hx as [->|[->| ->]]; cbn -[handleApiError];
      unfold handleApiError; rewrite Hk2; by destruct fileProtocol.
Qed.

Lemma generateIllustration_returns (ai : option Client)
    (generateImages : Client -> str -> Result GenerateImagesResponse)
    (prompt : str) (e : Thrown) :
  generateIllustration ai generateImages prompt <> Threw e.
Proof.
  unfold generateIllustration, getAi. destruct ai as [c|]; [|done].
  destruct (generateImages c _) as [[[| |[|[[| |im]] rest]]]|]; done.
Qed.

(** X20: [generateIllustration] never throws. Without a client, when the
    SDK call fails, when the response has no image or when its first entry
    has no [image], the result is [null]; any other result is the
    [imageBytes] of the first image of the response to the prompt with the
    fixed preamble. *)
Theorem illustration_failures_yield_null (ai : option Client)
    (generateImages : Client -> str -> Result GenerateImagesResponse)
    (prompt : str) :
  (forall e, generateIllustration ai generateImages prompt <> Threw e)
  /\ (forall r,
        generateIllustration ai generateImages prompt = Returned r ->
        r <> null ->
        exists c response first rest im,
          ai = Some c
          /\ generateImages c (illustrationPrompt prompt) = Returned response
          /\ generatedImages response = val (first :: rest)
          /\ image first = val im /\ r = imageBytes im)
  /\ (ai = None -> generateIllustration ai generateImages prompt = Returned null)
  /\ (forall c e,
        ai = Some c ->
        generateImages c (illustrationPrompt prompt) = Threw e ->
        generateIllustration ai generateImages prompt = Returned null)
  /\ (forall c response,
        ai = Some c ->
        generateImages c (illustrationPrompt prompt) = Returned response ->
        (generatedImages response = undefined
         \/ generatedImages response = null
         \/ generatedImages response = val []
         \/ exists first rest,
              generatedImages response = val (first :: rest)
              /\ image first = undefined) ->
        generateIllustration ai generateImages prompt = Returned null).
Proof.
  split; [intros e; apply generateIllustration_returns|].
  unfold generateIllustration, getAi.
  split; [|split; [|split]].
  - intros r. destruct ai as [c|]; [|by intros [= <-]].
    destruct (generateImages c _) as [[[| |[|[[| |im]] rest]]]|] eqn:Hg;
      intros [= <-]; try done.
    intros _. by eexists c, _, (mkGeneratedImage (val im)), rest, im.
  - by intros ->.
  - by intros c e -> ->.
  - intros c response -> -> [->|[->|[->|(first & rest & -> & ->)]]]; done.
Qed.





(** X22: after any sequence of calls of [initializeAi], [getAi] returns
    the client of the last call with a non-empty key; a call with the empty
    key throws and leaves the client of an earlier call in place. Without
    any successful call [getAi] throws. *)
Theorem getAi_after_initializeAi (keys : list str) :
  let ai := foldl (fun ai key => (initializeAi ai key).2) None keys in
  (forall ai0 key,
      (initializeAi ai0 key).1 = Returned tt <-> key <> [])
  /\ (forall ai0, (initializeAi ai0 []).2 = ai0)
  /\ getAi ai
     = match last (filter (fun key => key <> []) keys) with
       | Some key => Returned (mkClient key)
       | None => Threw (ErrorObject notInitializedMessage)
       end.
Proof.
  cbv zeta. split; [|split].
  - intros ai0 key. unfold initializeAi. by case_bool_decide.
  - done.
  - assert (forall ai0,
               foldl (fun ai key => (initializeAi ai key).2) ai0 keys
               = match last (filter (fun key => key <> []) keys) with
                 | Some key => Some (mkClient key)
                 | None => ai0
                 end) as H.
    { induction keys as [|key keys IH]; intros ai0; [done|].
      cbn [foldl]. rewrite IH. unfold initializeAi.
      rewrite filter_cons. case_bool_decide as Hk.
      - subst key. cbn [snd]. by rewrite decide_False by (by intros []).
      - cbn [snd]. rewrite decide_True by done.
        rewrite last_cons. by destruct (last _). }
    rewrite H. by destruct (last _).
Qed.

(** X23: [handleApiError] reports an invalid key exactly for an [Error]
    whose message contains one of the two phrases of the API anywhere in
    its text; a thrown value that is no [Error] never counts as one. Every
    other failure is reported as a communication error, with the hint about
    the development server when the page was opened from a file. *)
Theorem handleApiError_classification (fileProtocol : bool) (error : Thrown) :
  let keyError :=
    exists message pre post phrase,
      error = ErrorObject message
      /\ phrase ∈ [lit "API key not valid";
                   lit "Requested entity was not found."]
      /\ message = pre ++ phrase ++ post in
  (handleApiError fileProtocol error = ErrorObject invalidKeyMessage
   <-> keyError)
  /\ (handleApiError fileProtocol error = ErrorObject fileProtocolMessage
      <-> ~ keyError /\ fileProtocol = true)
  /\ (handleApiError fileProtocol error = ErrorObject communicationMessage
      <-> ~ keyError /\ fileProtocol = false).
Proof.
  cbv zeta.
  assert (isKeyError error = true
          <-> exists message pre post phrase,
                error = ErrorObject message
                /\ phrase ∈ [lit "API key not valid";
                             lit "Requested entity was not found."]
                /\ message = pre ++ phrase ++ post) as Hkey.
  { unfold isKeyError. destruct error as [message|].
    - rewrite orb_true_iff, !includes_spec. split.
      + intros [(pre & post & H)|(pre & post & H)];
          eexists message, pre, post, _;
          (split; [done|split; [|exact H]]); rewrite !elem_of_cons; auto.
      + intros (m & pre & post & phrase & [= <-] & Hin & H).
        rewrite !elem_of_cons in Hin.
        destruct Hin as [->|[->|Hin]];
          [left|right|by apply elem_of_nil in Hin]; by exists pre, post.
    - split; [done|]. by intros (m & _ & _ & _ & [=] & _). }
  assert (invalidKeyMessage <> fileProtocolMessage) as H1
    by (apply (bool_decide_unpack _); by vm_compute).
  assert (invalidKeyMessage <> communicationMessage) as H2
    by (apply (bool_decide_unpack _); by vm_compute).
  assert (fileProtocolMessage <> communicationMessage) as H3
    by (apply (bool_decide_unpack _); by vm_compute).
  unfold handleApiError. rewrite <- Hkey.
  destruct (isKeyError error); [|destruct fileProtocol];
    (split; [|split]); split; try done; try (by intros [? ?]);
    try (intros [=]; congruence).
Qed.

(** *** Instances *)

Lemma generateSpeech_outcomes_witness :
  generateSpeech (Some (mkClient (lit "key"))) false
    (fun _ _ _ => Returned (val (lit "UklGRg=="))) (lit "Hello") Zephyr
  = Returned (lit "UklGRg==").
Proof.
  apply (proj1 (generateSpeech_outcomes (Some (mkClient (lit "key"))) false
                  (fun _ _ _ => Returned (val (lit "UklGRg==")))
                  (lit "Hello") Zephyr)).
  split; [done|]. by exists (mkClient (lit "key")).
Defined.

Lemma illustration_failures_yield_null_witness :
  generateIllustration (Some (mkClient (lit "key")))
    (fun _ _ => Threw OtherValue) (lit "a cell")
  = Returned null.
Proof.
  exact (proj1 (proj2 (proj2 (proj2
           (illustration_failures_yield_null (Some (mkClient (lit "key")))
              (fun _ _ => Threw OtherValue) (lit "a cell")))))
           (mkClient (lit "key")) OtherValue eq_refl eq_refl).
Defined.


End GeminiFacts.

(** ** Instances of the further properties *)


Lemma no_question_is_skipped_witness :
  get (checkedStates (Example3.after Example3.before_assessment)) 1 = val true.
Proof.
  apply (proj1 (no_question_is_skipped Example3.qs
                  (Example3.after Example3.before_assessment)
                  (reachable_run _ _ _ (reachable_start _)))).
  vm_compute. lia.
Defined.


Lemma self_assessment_is_final_witness :
  get (selfAssessedCorrectness
         (fst (run Example3.qs (Example3.after Example3.before_last)
                   [ClickPrev; ClickNext; ClickSelfAssessment false]))) 2
  = val true.
Proof.
  apply (proj1 (self_assessment_is_final Example3.qs
                  (Example3.after Example3.before_last) 2 true eq_refl)).
Defined.

Lemma draft_follows_current_question_witness :
  get (userAnswers (Example3.after Example3.before_assessment))
      (currentQuestionIndex (Example3.after Example3.before_assessment))
  = val (tempShortAnswer (Example3.after Example3.before_assessment)).
Proof.
  apply (proj2 (draft_follows_current_question Example3.qs
                  (Example3.after Example3.before_assessment) Example3.q2
                  (reachable_run _ _ _ (reachable_start _)) eq_refl));
    reflexivity.
Defined.

Lemma unchecked_draft_is_lost_on_navigation_witness :
  fst (run Example3.qs (Example3.after Example3.at_third)
           [ChangeShortAnswer (lit "seoul"); ClickPrev; ClickNext])
  = mkState (currentQuestionIndex (Example3.after Example3.at_third))
            (userAnswers (Example3.after Example3.at_third))
            (checkedStates (Example3.after Example3.at_third)) false []
            (selfAssessedCorrectness (Example3.after Example3.at_third)).
Proof.
  apply (unchecked_draft_is_lost_on_navigation Example3.qs
           (Example3.after Example3.at_third) Example3.q2 (lit "seoul")
           (reachable_run _ _ _ (reachable_start _)));
    try reflexivity.
  vm_compute. lia.
Defined.

Lemma typed_answer_is_recorded_verbatim_witness :
  fst (run Example3.qs (Example3.after Example3.at_third)
           [ChangeShortAnswer (lit " seoul "); ClickCheckAnswer])
  = mkState (currentQuestionIndex (Example3.after Example3.at_third))
            (set (userAnswers (Example3.after Example3.at_third))
                 (currentQuestionIndex (Example3.after Example3.at_third))
                 (val (lit " seoul ")))
            (set (checkedStates (Example3.after Example3.at_third))
                 (currentQuestionIndex (Example3.after Example3.at_third))
                 (val true))
            false (lit " seoul ")
            (selfAssessedCorrectness (Example3.after Example3.at_third)).
Proof.
  apply (proj1 (typed_answer_is_recorded_verbatim Example3.qs
                  (Example3.after Example3.at_third) Example3.q2
                  (lit " seoul ") eq_refl eq_refl eq_refl eq_refl)).
  vm_compute. discriminate.
Defined.

Lemma last_selection_is_recorded_witness :
  currentQuestionIndex
    (fst (run Example3.qs (start Example3.qs)
              [ClickOption 0; ClickOption 1; ClickCheckAnswer]))
  = currentQuestionIndex (start Example3.qs)
  /\ get (userAnswers
            (fst (run Example3.qs (start Example3.qs)
                      [ClickOption 0; ClickOption 1; ClickCheckAnswer]))) 0
     = val (lit "B").
Proof.
  pose proof (last_selection_is_recorded Example3.qs (start Example3.qs)
                Example3.q0 0 1 (lit "A") (lit "B")
                eq_refl eq_refl eq_refl eq_refl eq_refl eq_refl) as H.
  cbv zeta in H. destruct H as (H1 & H2 & _). split; [exact H1|exact (H2 0)].
Defined.

Lemma well_formed_quiz_can_be_completed_witness :
  completed (fst (run Example3.qs (start Example3.qs)
                      (walkthrough Example3.qs)))
  /\ length (reports (snd (run Example3.qs (start Example3.qs)
                               (walkthrough Example3.qs)))) = 1.
Proof.
  apply (well_formed_quiz_can_be_completed Example3.qs).
  - discriminate.
  - repeat constructor; discriminate || reflexivity.
Defined.



Lemma completed_session_report_witness :
  exists score correct correctness,
    reports (snd (run Example3.qs (start Example3.qs) Example3.session))
    = [onSubmit score correct (length Example3.qs)
                (userAnswers
                   (fst (run Example3.qs (start Example3.qs) Example3.session)))
                correctness]
    /\ (forall i q,
          Example3.qs !! i = Some q ->
          answered q
            (get (userAnswers
                    (fst (run Example3.qs (start Example3.qs) Example3.session)))
                 i))
    /\ (forall i q,
          Example3.qs !! i = Some q -> isMcOrOx q = false ->
          exists b,
            get (selfAssessedCorrectness
                   (fst (run Example3.qs (start Example3.qs) Example3.session)))
                i = val b
            /\ correctness !! i = Some (val b))
    /\ (forall i q,
          Example3.qs !! i = Some q -> isMcOrOx q = true ->
          correctness !! i
          = Some (val (isAnswerMatch
                         (get (userAnswers
                                 (fst (run Example3.qs (start Example3.qs)
                                           Example3.session))) i)
                         (answer q)))).
Proof.
  apply (completed_session_report Example3.qs Example3.session). reflexivity.
Defined.

Lemma unmatched_answer_is_never_correct_witness :
  calculatedCorrectness Example3.qs_unmatched
    (fst (run Example3.qs_unmatched (start Example3.qs_unmatched)
              [ClickOption 0; ClickCheckAnswer])) !! 0
  = Some false.
Proof.
  apply (unmatched_answer_is_never_correct Example3.qs_unmatched _ 0
           Example3.q_unmatched eq_refl eq_refl).
  - repeat constructor.
  - apply reachable_run, reachable_start.
Defined.

Lemma option_feedback_agrees_with_grade_witness :
  exists (a : str) (c : bool),
    userAnswer (Example3.after [ClickOption 0; ClickCheckAnswer]) = val a
    /\ a ∈ renderedOptions Example3.q0
    /\ calculatedCorrectness Example3.qs
         (Example3.after [ClickOption 0; ClickCheckAnswer])
       !! currentQuestionIndex (Example3.after [ClickOption 0; ClickCheckAnswer])
       = Some c
    /\ getOptionClasses Example3.q0
         (Example3.after [ClickOption 0; ClickCheckAnswer]) a
       = (if c then classesCorrect else classesIncorrect)
    /\ classesCorrect <> classesIncorrect
    /\ forall o,
         showCorrectLabel Example3.q0
           (Example3.after [ClickOption 0; ClickCheckAnswer]) o
         = isAnswerMatch (val o) (answer Example3.q0)
         /\ (o <> a ->
             getOptionClasses Example3.q0
               (Example3.after [ClickOption 0; ClickCheckAnswer]) o
             = if isAnswerMatch (val o) (answer Example3.q0)
               then classesCorrect else classesDimmed).
Proof.
  apply (proj2 (option_feedback_agrees_with_grade Example3.qs
                  (Example3.after [ClickOption 0; ClickCheckAnswer])
                  Example3.q0
                  (reachable_run _ _ _ (reachable_start _)) eq_refl eq_refl)).
  reflexivity.
Defined.

Lemma isAnswerMatch_is_an_equivalence_witness :
  isAnswerMatch (val (lit "Paris.")) (lit " Paris")
  = bool_decide (normalize (lit "Paris.") = normalize (lit " Paris"))
  /\ isAnswerMatch (val (lit "Paris.")) (lit "Paris.") = true
  /\ isAnswerMatch (val (lit "Paris.")) (lit " Paris")
     = isAnswerMatch (val (lit " Paris")) (lit "Paris.")
  /\ (isAnswerMatch (val (lit "Paris.")) (lit " Paris") = true ->
      isAnswerMatch (val (lit " Paris")) (lit "Paris,") = true ->
      isAnswerMatch (val (lit "Paris.")) (lit "Paris,") = true).
Proof.
  apply (isAnswerMatch_is_an_equivalence (lit "Paris.") (lit " Paris")
           (lit "Paris,")); discriminate.
Defined.

Lemma check_is_disabled_for_blank_drafts_witness :
  isCheckAnswerDisabled Example3.q2
    (fst (step Example3.qs (Example3.after Example3.at_third)
               (ChangeShortAnswer (lit "  "))))
  = true
  <-> Forall (fun c => isWhiteSpace c = true)
             (tempShortAnswer
                (fst (step Example3.qs (Example3.after Example3.at_third)
                           (ChangeShortAnswer (lit "  "))))).
Proof.
  apply (check_is_disabled_for_blank_drafts Example3.q2 _ eq_refl).
Defined.

(** ** Decoding the spoken audio: what it yields *)

Module AudioFacts.
Import Audio.

Lemma allBytes_complete (b : byte) : b ∈ allBytes.
Proof.
  unfold allBytes. apply list_elem_of_omap.
  exists (N.to_nat (Byte.to_N b)). split.
  - apply elem_of_seq. pose proof (Byte.to_N_bounded b). lia.
  - rewrite N2Nat.id. apply Byte.of_to_N.
Qed.

Lemma samples_checked :
  forallb (fun lo =>
             forallb (fun hi => exactSample (int16 lo hi) (sample (int16 lo hi)))
                     allBytes)
          allBytes = true.
Proof. by vm_compute. Qed.

Lemma sample_exact (lo hi : byte) :
  exactSample (int16 lo hi) (sample (int16 lo hi)) = true.
Proof.
  pose proof samples_checked as H.
  assert (forall b : byte, In b allBytes) as Hall
      by (intros b; apply list_elem_of_In, allBytes_complete).
  rewrite forallb_forall in H. specialize (H lo (Hall lo)).
  rewrite forallb_forall in H. exact (H hi (Hall hi)).
Qed.

Lemma int16_range (lo hi : byte) : (-32768 <= int16 lo hi < 32768)%Z.
Proof.
  unfold int16. pose proof (Byte.to_N_bounded lo). pose proof (Byte.to_N_bounded hi).
  cbv zeta. destruct (Z.ltb_spec (Z.of_N (to_N lo) + 256 * Z.of_N (to_N hi)) 32768);
    lia.
Qed.

Lemma pairs_ind (P : list byte -> Prop) :
  P [] -> (forall b, P [b]) ->
  (forall lo hi rest, P rest -> P (lo :: hi :: rest)) ->
  forall data, P data.
Proof.
  intros Hnil Hone Hstep data.
  assert (P data /\ forall b, P (b :: data)) as [H _]; [|done].
  induction data as [|b data [IH1 IH2]]; [by split|].
  split; [apply IH2|]. intros b'. by apply Hstep.
Qed.

Lemma dataInt16_samples (data : list byte) :
  Forall (fun v => (-32768 <= v < 32768)%Z
                   /\ exactSample v (sample v) = true)
         (dataInt16 data).
Proof.
  induction data as [|b|lo hi rest IH] using pairs_ind;
    cbn [dataInt16]; try by constructor.
  constructor; [split; [apply int16_range|apply sample_exact]|done].
Qed.

Lemma length_dataInt16 (data : list byte) :
  length (dataInt16 data) = length data / 2.
Proof.
  induction data as [|b|lo hi rest IH] using pairs_ind;
    cbn [dataInt16]; try done.
  cbn [length]. rewrite IH.
  change (S (S (length rest))) with (2 + length rest).
  replace (2 + length rest) with (length rest + 1 * 2) by lia.
  rewrite Nat.div_add by done. lia.
Qed.

(** X19: [decodeAudioData] resolves exactly for an even number of at least
    two bytes, with one sample per pair of bytes. Every sample is exactly
    the 16-bit little-endian value of its pair divided by 32768: it lies in
    the interval from -1 (included) to 1 (excluded) and is stored in the
    [Float32Array] without rounding. An empty or odd-sized buffer rejects
    the promise. *)
Theorem decoded_samples_are_normalized (data : list byte) :
  (forall samples,
      decodeAudioData data = Resolved samples ->
      2 <= length data /\ Nat.even (length data) = true
      /\ length samples = length data / 2
      /\ Forall2 (fun v x =>
                    x = sample v /\ fitsFloat32 x = true
                    /\ exists y, to_Q x = Some y
                                 /\ (y == v # 32768)%Q
                                 /\ (-1 <= y)%Q /\ (y < 1)%Q)
                 (dataInt16 data) samples)
  /\ (length data < 2 -> decodeAudioData data = Rejected NotSupportedError)
  /\ (2 <= length data -> Nat.odd (length data) = true ->
      decodeAudioData data = Rejected RangeError)
  /\ (2 <= length data -> Nat.even (length data) = true ->
      decodeAudioData data = Resolved (sample <$> dataInt16 data)).
Proof.
  unfold decodeAudioData. cbv zeta.
  destruct (Nat.eqb_spec (length data / 2) 0) as [H0|H0].
  - assert (length data < 2) as Hlt.
    { destruct (decide (length data < 2)) as [|Hge]; [done|].
      pose proof (Nat.div_le_lower_bound (length data) 2 1 ltac:(done)
                    ltac:(lia)). lia. }
    split; [done|]. split; [done|]. split; intros; lia.
  - assert (2 <= length data) as Hge.
    { destruct (decide (2 <= length data)) as [|Hlt]; [done|].
      rewrite Nat.div_small in H0 by lia. done. }
    destruct (Nat.odd (length data)) eqn:Hodd.
    + split; [done|]. split; [intros; lia|]. split; [done|].
      intros _ Hev. rewrite <- Nat.negb_odd, Hodd in Hev. done.
    + split; [|split; [intros; lia|split; [done|done]]].
      intros samples [= <-]. split; [done|].
      split; [by rewrite <- Nat.negb_odd, Hodd|].
      split; [by rewrite length_fmap, length_dataInt16|].
      apply Forall2_fmap_r, Forall_Forall2_diag.
      eapply Forall_impl; [apply dataInt16_samples|].
      intros v [Hv Hx]. split; [done|]. unfold exactSample in Hx.
      destruct (to_Q (sample v)) as [y|]; [|done].
      apply andb_prop in Hx as [Hy Hf]. split; [done|].
      exists y. split; [done|]. apply Qeq_bool_eq in Hy. split; [done|].
      rewrite Hy. unfold Qle, Qlt. cbn. lia.
Qed.

Lemma decoded_samples_are_normalized_witness :
  decodeAudioData [x00; x80; xff; x7f]
  = Resolved [sample (-32768); sample 32767].
Proof.
  exact (proj2 (proj2 (proj2
           (decoded_samples_are_normalized [x00; x80; xff; x7f])))
           ltac:(cbn; lia) eq_refl).
Defined.

End AudioFacts.
